(** * A shallow embedding of the demo language server (server.js)

    The server keeps a per-document table of naively recognised
    declarations and answers hover / definition / references / rename
    queries, plus a line-length diagnostic.

    Modelling conventions.
    - A JavaScript string is the list of its UTF-16 code units ([N]);
      [.length], indexing, [indexOf] and [substring] all count code units.
    - Numbers that the code uses as line / character offsets are [Z].
      Positions are non-negative in the protocol, but the handlers do not
      validate them, so the model admits negative values as well.
    - An operation that can raise is a [completion]: [Normal v] or
      [Throw TypeError].
    - [symbolTable] (the plain object [{}] used as a map) and the
      documents manager are finite maps keyed by uri.  A read of
      [symbolTable[uri]] that finds no entry goes on along the prototype
      chain of the object, see [table_get]: a uri that names an inherited
      property reads a value that is not an array.
    - [console.error] logging has no effect on results and is left out. *)

From Stdlib Require Import ZArith NArith Ascii String DecimalString Bool Lia.
From stdpp Require Import base list option gmap.

Local Open Scope Z_scope.

(** ** Strings *)

Abbreviation jsstring := (list N).

Definition str (s : string) : jsstring :=
  map N_of_ascii (list_ascii_of_string s).

(** [.length] of a string or of an array. *)
Definition len {A : Type} (s : list A) : Z := Z.of_nat (length s).

(** [a[i]] / [s[i]] for a number [i]: [undefined] ([None]) outside the
    indices, negative ones included. *)
Definition js_index {A : Type} (l : list A) (i : Z) : option A :=
  if i <? 0 then None else l !! Z.to_nat i.

Definition in_range (lo hi c : N) : bool := ((lo <=? c) && (c <=? hi))%N.

(** The class [[a-zA-Z0-9_$]]. *)
Definition is_ident_char (c : N) : bool :=
  in_range 97 122 c || in_range 65 90 c || in_range 48 57 c
  || (c =? 95)%N || (c =? 36)%N.

(** The class [\w], used by [\b]. *)
Definition is_word_char (c : N) : bool :=
  in_range 97 122 c || in_range 65 90 c || in_range 48 57 c || (c =? 95)%N.

(** The class [\s]: WhiteSpace and LineTerminator code units. *)
Definition is_space (c : N) : bool :=
  in_range 9 13 c || (c =? 32)%N || (c =? 160)%N || (c =? 5760)%N
  || in_range 8192 8202 c || (c =? 8232)%N || (c =? 8233)%N
  || (c =? 8239)%N || (c =? 8287)%N || (c =? 12288)%N || (c =? 65279)%N.

Definition CR : N := 13.
Definition LF : N := 10.

(** [text.split(/\r?\n/g)]: a line ends at each LF; one CR directly before
    that LF belongs to the terminator.  The result is never empty. *)
Fixpoint split_go (cur : jsstring) (s : jsstring) : list jsstring :=
  match s with
  | [] => [cur]
  | c :: rest =>
      if (c =? LF)%N then cur :: split_go [] rest
      else if (c =? CR)%N then
        match rest with
        | d :: rest' =>
            if (d =? LF)%N then cur :: split_go [] rest'
            else split_go (cur ++ [c]) rest
        | [] => split_go (cur ++ [c]) rest
        end
      else split_go (cur ++ [c]) rest
  end.

Definition split_lines (text : jsstring) : list jsstring := split_go [] text.

Fixpoint is_prefix (w h : jsstring) : bool :=
  match w, h with
  | [], _ => true
  | _ :: _, [] => false
  | a :: w', b :: h' => (a =? b)%N && is_prefix w' h'
  end.

(** [h.indexOf(w)], searching from offset [i] of the original string. *)
Fixpoint indexOf_from (h w : jsstring) (i : Z) : Z :=
  if is_prefix w h then i
  else match h with
       | [] => -1
       | _ :: h' => indexOf_from h' w (i + 1)
       end.

Definition indexOf (h w : jsstring) : Z := indexOf_from h w 0.

(** [s.substring(a, b)]: both arguments are clamped to [0, length] and
    swapped when out of order. *)
Definition clamp (s : jsstring) (z : Z) : Z := Z.max 0 (Z.min z (len s)).

Definition substring (s : jsstring) (a b : Z) : jsstring :=
  let a' := clamp s a in
  let b' := clamp s b in
  let lo := Z.min a' b' in
  let hi := Z.max a' b' in
  take (Z.to_nat (hi - lo)) (drop (Z.to_nat lo) s).

(** ** Regular expressions

    The fragment of ECMAScript patterns the server uses, with the
    backtracking semantics of the language: alternatives left to right,
    greedy quantifiers longest first, one capture group. *)

Inductive regex : Type :=
| RChar (c : N)
| RClass (p : N -> bool)
| RWordB
| RSeq (r1 r2 : regex)
| RAlt (r1 r2 : regex)
| RStar (p : N -> bool)
| RGroup (r : regex).

Definition RPlus (p : N -> bool) : regex := RSeq (RClass p) (RStar p).

Fixpoint RLit (cs : jsstring) : regex :=
  match cs with
  | [] => RStar (fun _ => false)
  | [c] => RChar c
  | c :: cs' => RSeq (RChar c) (RLit cs')
  end.

Abbreviation capture := (option (nat * nat)).

Fixpoint run_length (p : N -> bool) (s : jsstring) : nat :=
  match s with
  | c :: s' => if p c then S (run_length p s') else O
  | [] => O
  end.

Section Matcher.
Context {A : Type}.
Variable s : jsstring.

(** Try the continuation after [n], [n-1], ..., [0] repetitions. *)
Fixpoint greedy (k : nat -> option A) (i n : nat) : option A :=
  match k (i + n)%nat with
  | Some r => Some r
  | None => match n with
            | O => None
            | S n' => greedy k i n'
            end
  end.

Definition word_before (i : nat) : bool :=
  match i with
  | O => false
  | S j => from_option is_word_char false (s !! j)
  end.

Definition word_at (i : nat) : bool :=
  from_option is_word_char false (s !! i).

Fixpoint rmatch (r : regex) (i : nat) (cap : capture)
         (k : nat -> capture -> option A) : option A :=
  match r with
  | RChar c =>
      match s !! i with
      | Some d => if (c =? d)%N then k (S i) cap else None
      | None => None
      end
  | RClass p =>
      match s !! i with
      | Some d => if p d then k (S i) cap else None
      | None => None
      end
  | RWordB => if xorb (word_before i) (word_at i) then k i cap else None
  | RSeq r1 r2 => rmatch r1 i cap (fun j c => rmatch r2 j c k)
  | RAlt r1 r2 =>
      match rmatch r1 i cap k with
      | Some x => Some x
      | None => rmatch r2 i cap k
      end
  | RStar p => greedy (fun j => k j cap) i (run_length p (drop i s))
  | RGroup r' => rmatch r' i cap (fun j _ => k j (Some (i, j)))
  end.
End Matcher.

(** The leftmost match: start offsets [i], [i+1], ... are tried in turn. *)
Fixpoint exec_from (r : regex) (s : jsstring) (i fuel : nat)
  : option (nat * nat * capture) :=
  match rmatch s r i None (fun j c => Some (i, j, c)) with
  | Some m => Some m
  | None => match fuel with
            | O => None
            | S f => exec_from r s (S i) f
            end
  end.

Record MatchResult : Type := {
  m_index : Z;
  m_whole : jsstring;
  m_group1 : option jsstring
}.

Definition slice (s : jsstring) (a b : nat) : jsstring :=
  take (b - a)%nat (drop a s).

(** [s.match(r)] for a pattern without the [g] flag: [null] or the match
    array, of which [[0]], [[1]] and [index] are kept. *)
Definition js_match (r : regex) (s : jsstring) : option MatchResult :=
  match exec_from r s 0 (length s) with
  | None => None
  | Some (i, j, c) =>
      Some {| m_index := Z.of_nat i;
              m_whole := slice s i j;
              m_group1 := (fun ab => slice s (fst ab) (snd ab)) <$> c |}
  end.

(** [/\b(?:let|const)\s+([a-zA-Z0-9_$]+)\s*=/] *)
Definition varRegex : regex :=
  RSeq RWordB
    (RSeq (RAlt (RLit (str "let")) (RLit (str "const")))
       (RSeq (RPlus is_space)
          (RSeq (RGroup (RPlus is_ident_char))
             (RSeq (RStar is_space) (RChar 61))))).

(** [/\bfunction\s+([a-zA-Z0-9_$]+)\s*\(/] *)
Definition funcRegex : regex :=
  RSeq RWordB
    (RSeq (RLit (str "function"))
       (RSeq (RPlus is_space)
          (RSeq (RGroup (RPlus is_ident_char))
             (RSeq (RStar is_space) (RChar 40))))).

(** ** Data model *)

Record Position : Type := { line : Z; character : Z }.

Record Range : Type := { start : Position; end_ : Position }.

Inductive SymbolType : Type := TyVariable | TyFunction.

Definition type_text (t : SymbolType) : jsstring :=
  match t with
  | TyVariable => str "variable"
  | TyFunction => str "function"
  end.

Record Symbol : Type := {
  name : jsstring;
  range : Range;
  type : SymbolType;
  docUri : jsstring
}.

Record Diagnostic : Type := {
  severity : Z;
  diag_range : Range;
  message : jsstring;
  source : jsstring
}.

Record Location : Type := { loc_uri : jsstring; loc_range : Range }.

Record TextEdit : Type := { edit_range : Range; newText : jsstring }.

Record WorkspaceEdit : Type := { changes : gmap jsstring (list TextEdit) }.

Record Hover : Type := { contents_kind : jsstring; contents_value : jsstring }.

(** A text document as the handlers see it: its uri and [getText()]. *)
Record TextDocument : Type := { uri : jsstring; getText : jsstring }.

Inductive js_error : Type := TypeError.

Inductive completion (A : Type) : Type :=
| Normal (a : A)
| Throw (e : js_error).
Arguments Normal {A} a.
Arguments Throw {A} e.

#[global] Instance completion_bind : MBind completion :=
  fun A B (f : A -> completion B) (c : completion A) =>
    match c with
    | Normal a => f a
    | Throw e => Throw e
    end.

(** The process-wide state: the symbol table, the documents manager and
    the diagnostics notifications sent so far (oldest first). *)
Record Server : Type := {
  symbolTable : gmap jsstring (list Symbol);
  documents : gmap jsstring TextDocument;
  sent : list (jsstring * list Diagnostic)
}.

#[global] Instance position_eq_dec : EqDecision Position.
Proof. solve_decision. Defined.
#[global] Instance range_eq_dec : EqDecision Range.
Proof. solve_decision. Defined.
#[global] Instance symbol_type_eq_dec : EqDecision SymbolType.
Proof. solve_decision. Defined.
#[global] Instance symbol_eq_dec : EqDecision Symbol.
Proof. solve_decision. Defined.

Definition mkRange (l : Z) (a b : Z) : Range :=
  {| start := {| line := l; character := a |};
     end_ := {| line := l; character := b |} |}.

(** ** Diagnostics *)

Definition too_long (i : Z) (lineText : jsstring) : Diagnostic :=
  {| severity := 2;
     diag_range := mkRange i 80 (len lineText);
     message := str "Line exceeds 80 characters.";
     source := str "demo-lsp" |}.

(** The [for] loop of [validateTextDocument]: [lines] are the lines from
    index [i] on, [diagnostics] the array pushed to so far. *)
Fixpoint validate_loop (lines : list jsstring) (i : Z)
         (diagnostics : list Diagnostic) : list Diagnostic :=
  match lines with
  | [] => diagnostics
  | l :: rest =>
      validate_loop rest (i + 1)
        (if len l >? 80 then diagnostics ++ [too_long i l] else diagnostics)
  end.

Definition validateTextDocument (textDocument : TextDocument) (σ : Server)
  : list Diagnostic * Server :=
  let text := getText textDocument in
  let lines := split_lines text in
  let diagnostics := validate_loop lines 0 [] in
  (diagnostics,
   {| symbolTable := symbolTable σ;
      documents := documents σ;
      sent := sent σ ++ [(uri textDocument, diagnostics)] |}).

(** ** Symbol parsing *)

(** [symbolTable[uri].push(sym)] *)
Definition push_symbol (u : jsstring) (sym : Symbol)
           (tbl : gmap jsstring (list Symbol)) : gmap jsstring (list Symbol) :=
  alter (fun a => a ++ [sym]) u tbl.

(** One of the two [if (m && m[1]) { ... push ... }] blocks. *)
Definition record_match (u : jsstring) (i : Z) (lineText : jsstring)
           (m : option MatchResult) (t : SymbolType)
           (tbl : gmap jsstring (list Symbol)) : gmap jsstring (list Symbol) :=
  match m with
  | Some {| m_group1 := Some (c :: cs) |} =>
      let name := c :: cs in
      let startChar := indexOf lineText name in
      let endChar := startChar + len name in
      push_symbol u
        {| name := name; range := mkRange i startChar endChar;
           type := t; docUri := u |} tbl
  | _ => tbl
  end.

Fixpoint parse_loop (u : jsstring) (lines : list jsstring) (i : Z)
         (tbl : gmap jsstring (list Symbol)) : gmap jsstring (list Symbol) :=
  match lines with
  | [] => tbl
  | l :: rest =>
      let tbl1 := record_match u i l (js_match varRegex l) TyVariable tbl in
      let tbl2 := record_match u i l (js_match funcRegex l) TyFunction tbl1 in
      parse_loop u rest (i + 1) tbl2
  end.

Definition parseDocumentSymbols (textDocument : TextDocument) (σ : Server)
  : Server :=
  let text := getText textDocument in
  let lines := split_lines text in
  let u := uri textDocument in
  {| symbolTable := parse_loop u lines 0 (<[u := []]> (symbolTable σ));
     documents := documents σ;
     sent := sent σ |}.

(** [documents.onDidChangeContent]: validate, then parse. *)
Definition onDidChangeContent (document : TextDocument) (σ : Server) : Server :=
  parseDocumentSymbols document (snd (validateTextDocument document σ)).

(** ** Word extraction *)

(** [/[a-zA-Z0-9_$]/.test(x)] for [x] a one-unit string or [undefined];
    [undefined] is converted to the text "undefined", which matches. *)
Definition test_ident (x : option N) : bool :=
  match x with
  | Some c => is_ident_char c
  | None => true
  end.

(** [while (start > 0 && test(lineText[start - 1])) start--] *)
Fixpoint left_loop (lineText : jsstring) (fuel : nat) (start : Z) : Z :=
  match fuel with
  | O => start
  | S f =>
      if (start >? 0) && test_ident (js_index lineText (start - 1))
      then left_loop lineText f (start - 1)
      else start
  end.

(** [while (end < lineText.length && test(lineText[end])) end++] *)
Fixpoint right_loop (lineText : jsstring) (fuel : nat) (end' : Z) : Z :=
  match fuel with
  | O => end'
  | S f =>
      if (end' <? len lineText) && test_ident (js_index lineText end')
      then right_loop lineText f (end' + 1)
      else end'
  end.

(** The result is [null] ([None]) or a string; reading [.length] of the
    [undefined] that [lines[line]] gives raises a TypeError. *)
Definition getWordAtPosition (textDocument : TextDocument) (ln ch : Z)
  : completion (option jsstring) :=
  let text := getText textDocument in
  let lines := split_lines text in
  if ln >=? len lines then Normal None
  else
    match js_index lines ln with
    | None => Throw TypeError
    | Some lineText =>
        if ch >=? len lineText then Normal None
        else
          let start := left_loop lineText (Z.to_nat ch) ch in
          let end' := right_loop lineText (Z.to_nat (len lineText - ch)) ch in
          Normal (Some (substring lineText start end'))
    end.

(** [!word] for [word] a string or [null]. *)
Definition falsy (w : option jsstring) : bool :=
  match w with
  | None | Some [] => true
  | Some (_ :: _) => false
  end.

(** ** Handlers *)

Definition isPositionInRange (ln ch : Z) (r : Range) : bool :=
  if (ln <? line (start r)) || (ln >? line (end_ r)) then false
  else if (ln =? line (start r)) && (ch <? character (start r)) then false
  else if (ln =? line (end_ r)) && (ch >? character (end_ r)) then false
  else true.

Definition hover_of (sym : Symbol) : Hover :=
  {| contents_kind := str "markdown";
     contents_value :=
       str "**Symbol**: `" ++ name sym ++ [96; 10]%N
       ++ str "**Type**: `" ++ type_text (type sym) ++ [96]%N |}.

Fixpoint hover_loop (ln ch : Z) (docSymbols : list Symbol) : option Hover :=
  match docSymbols with
  | [] => None
  | sym :: rest =>
      if isPositionInRange ln ch (range sym) then Some (hover_of sym)
      else hover_loop ln ch rest
  end.

(** *** Reading the symbol table

    [symbolTable] is created as [{}], so its prototype is
    [Object.prototype].  The finite map holds what the code has assigned:
    an own property for every key but [__proto__], which is an accessor of
    [Object.prototype]; assigning an array to it makes that array the
    prototype of [symbolTable], and reading it gives that array back.  So
    the entry under [__proto__], if there is one, is the prototype. *)

(** The property names of [Object.prototype]. *)
Definition object_prototype_names : list jsstring :=
  [ str "constructor"; str "__proto__"; str "hasOwnProperty";
    str "isPrototypeOf"; str "propertyIsEnumerable"; str "toLocaleString";
    str "toString"; str "valueOf"; str "__defineGetter__";
    str "__defineSetter__"; str "__lookupGetter__"; str "__lookupSetter__" ].

(** The property names of [Array.prototype] (ECMAScript 2023), [length]
    apart. *)
Definition array_prototype_names : list jsstring :=
  [ str "at"; str "concat"; str "constructor"; str "copyWithin";
    str "entries"; str "every"; str "fill"; str "filter"; str "find";
    str "findIndex"; str "findLast"; str "findLastIndex"; str "flat";
    str "flatMap"; str "forEach"; str "includes"; str "indexOf"; str "join";
    str "keys"; str "lastIndexOf"; str "map"; str "pop"; str "push";
    str "reduce"; str "reduceRight"; str "reverse"; str "shift"; str "slice";
    str "some"; str "sort"; str "splice"; str "toLocaleString";
    str "toReversed"; str "toSorted"; str "toSpliced"; str "toString";
    str "unshift"; str "values"; str "with" ].

(** The property name of the array element [i]. *)
Definition index_name (i : nat) : jsstring :=
  str (NilZero.string_of_uint (Nat.to_uint i)).

(** What [symbolTable[uri]] can be: an array of symbols, [undefined], a
    number (the [length] of a prototype array), or some other object or
    function, which is truthy, cannot be iterated and has no [find]. *)
Inductive table_value : Type :=
| VArray (a : list Symbol)
| VUndefined
| VNumber (n : Z)
| VObject.

(** [symbolTable[uri]]: the entry, or else what the prototype chain gives:
    [Object.prototype] alone, or a prototype array (its elements and its
    length), then [Array.prototype], then [Object.prototype]. *)
Definition table_get (tbl : gmap jsstring (list Symbol)) (u : jsstring)
  : table_value :=
  match tbl !! u with
  | Some a => VArray a
  | None =>
      match tbl !! str "__proto__" with
      | None =>
          if bool_decide (u ∈ object_prototype_names) then VObject
          else VUndefined
      | Some proto =>
          if bool_decide (u = str "length") then VNumber (len proto)
          else if bool_decide (u ∈ index_name <$> seq 0 (length proto))
          then VObject
          else if bool_decide (u ∈ array_prototype_names ++ object_prototype_names)
          then VObject
          else VUndefined
      end
  end.

(** [symbolTable[uri] || []], as far as the handlers can use it: [None]
    stands for a truthy value that is not an array, on which [for ... of]
    and [.find(...)] raise a TypeError. *)
Definition docSymbols_of (tbl : gmap jsstring (list Symbol)) (u : jsstring)
  : option (list Symbol) :=
  match table_get tbl u with
  | VArray a => Some a
  | VUndefined => Some []
  | VNumber n => if n =? 0 then Some [] else None
  | VObject => None
  end.

(** The uri has no entry and reads a truthy value from the prototype
    chain. *)
Definition inherits (tbl : gmap jsstring (list Symbol)) (u : jsstring) : bool :=
  match docSymbols_of tbl u with
  | Some _ => false
  | None => true
  end.

Definition handleHover (σ : Server) (u : jsstring) (pos : Position)
  : completion (option Hover) :=
  match docSymbols_of (symbolTable σ) u with
  | Some docSymbols =>
      Normal (hover_loop (line pos) (character pos) docSymbols)
  | None => Throw TypeError
  end.

(** [docSymbols.find(sym => sym.name === word)] *)
Fixpoint find_symbol (word : jsstring) (docSymbols : list Symbol)
  : option Symbol :=
  match docSymbols with
  | [] => None
  | sym :: rest =>
      if decide (name sym = word) then Some sym else find_symbol word rest
  end.

Definition handleDefinition (σ : Server) (u : jsstring) (pos : Position)
  : completion (option Location) :=
  match documents σ !! u with
  | None => Normal None
  | Some doc =>
      word ← getWordAtPosition doc (line pos) (character pos);
      match word with
      | None | Some [] => Normal None
      | Some (c :: cs) =>
          match docSymbols_of (symbolTable σ) u with
          | None => Throw TypeError
          | Some docSymbols =>
              match find_symbol (c :: cs) docSymbols with
              | None => Normal None
              | Some foundSymbol =>
                  Normal (Some {| loc_uri := docUri foundSymbol;
                                  loc_range := range foundSymbol |})
              end
          end
      end
  end.

(** The loop shared in shape by references and rename: the first
    occurrence of [word] on each line from index [i] on. *)
Fixpoint references_loop (u word : jsstring) (lines : list jsstring) (i : Z)
         (locations : list Location) : list Location :=
  match lines with
  | [] => locations
  | l :: rest =>
      let idx := indexOf l word in
      references_loop u word rest (i + 1)
        (if negb (idx =? -1)
         then locations ++ [{| loc_uri := u;
                               loc_range := mkRange i idx (idx + len word) |}]
         else locations)
  end.

Definition handleReferences (σ : Server) (u : jsstring) (pos : Position)
  : completion (list Location) :=
  match documents σ !! u with
  | None => Normal []
  | Some doc =>
      word ← getWordAtPosition doc (line pos) (character pos);
      match word with
      | None | Some [] => Normal []
      | Some (c :: cs) =>
          let text := getText doc in
          let lines := split_lines text in
          Normal (references_loop u (c :: cs) lines 0 [])
      end
  end.

Fixpoint rename_loop (oldName newName : jsstring) (lines : list jsstring)
         (i : Z) (edits : list TextEdit) : list TextEdit :=
  match lines with
  | [] => edits
  | l :: rest =>
      let idx := indexOf l oldName in
      rename_loop oldName newName rest (i + 1)
        (if negb (idx =? -1)
         then edits ++ [{| edit_range := mkRange i idx (idx + len oldName);
                           newText := newName |}]
         else edits)
  end.

Definition handleRenameRequest (σ : Server) (u : jsstring) (pos : Position)
           (newName : jsstring) : completion (option WorkspaceEdit) :=
  match documents σ !! u with
  | None => Normal None
  | Some doc =>
      oldName ← getWordAtPosition doc (line pos) (character pos);
      if falsy oldName || falsy (Some newName) then Normal None
      else
        let old := default [] oldName in
        let text := getText doc in
        let lines := split_lines text in
        let edits := rename_loop old newName lines 0 [] in
        Normal (Some {| changes := {[ u := edits ]} |})
  end.

(** ** Notions used by the statements *)

(** Occurrences of a string in a string. *)
Definition occurs_at (w h : jsstring) (n : nat) : Prop :=
  ∃ pre post, h = pre ++ w ++ post ∧ length pre = n.

Definition occurs (w h : jsstring) : Prop := ∃ n, occurs_at w h n.

Definition first_occurrence (w h : jsstring) (n : nat) : Prop :=
  occurs_at w h n ∧ ∀ m, occurs_at w h m → (n ≤ m)%nat.

(** Capture positions lie inside the subject string. *)
Definition cap_ok (s : jsstring) (c : capture) : Prop :=
  match c with
  | None => True
  | Some (a, b) => (a ≤ b ≤ length s)%nat
  end.

Definition regex_of (t : SymbolType) : regex :=
  match t with
  | TyVariable => varRegex
  | TyFunction => funcRegex
  end.

(** The scan as the specification words it: every line is tested against
    the two declaration shapes independently, and a shape contributes the
    symbol of its match, if it has one. *)
Definition shape_symbol (u : jsstring) (i : Z) (l : jsstring) (t : SymbolType)
  : list Symbol :=
  match js_match (regex_of t) l with
  | Some {| m_group1 := Some (c :: cs) |} =>
      [{| name := c :: cs;
          range := mkRange i (indexOf l (c :: cs))
                     (indexOf l (c :: cs) + len (c :: cs));
          type := t;
          docUri := u |}]
  | _ => []
  end.

Fixpoint scan_spec (u : jsstring) (lines : list jsstring) (i : Z) : list Symbol :=
  match lines with
  | [] => []
  | l :: rest =>
      shape_symbol u i l TyVariable ++ shape_symbol u i l TyFunction
      ++ scan_spec u rest (i + 1)
  end.

(** The location that references records for a line: [idx] is where the
    word was found. *)
Definition reference_at (u word : jsstring) (i : Z) (idx : Z) : Location :=
  {| loc_uri := u; loc_range := mkRange i idx (idx + len word) |}.

(** ** Sample documents

    The documents of the unit tests, and the way a document reaches the
    handlers: the documents manager stores it and fires the change event. *)

Definition empty_server : Server :=
  {| symbolTable := ∅; documents := ∅; sent := [] |}.

Definition open_document (doc : TextDocument) (σ : Server) : Server :=
  onDidChangeContent doc
    {| symbolTable := symbolTable σ;
       documents := <[uri doc := doc]> (documents σ);
       sent := sent σ |}.

Definition test_uri : jsstring := str "file://test.js".

Definition one_line_doc : TextDocument :=
  {| uri := test_uri; getText := str "let myVar = 10;" |}.

Definition sample_text : jsstring :=
  str "let myVar = 10;" ++ [LF] ++ str "function myFunc() {" ++ [LF]
  ++ str "  console.log(myVar);" ++ [LF] ++ str "}".

Definition sample_doc : TextDocument :=
  {| uri := test_uri; getText := sample_text |}.

Definition sample_server : Server := open_document sample_doc empty_server.

(** A line on which the function name also ends the variable name. *)
Definition overlap_doc : TextDocument :=
  {| uri := test_uri; getText := str "let ab = function b(" |}.

Definition overlap_server : Server := open_document overlap_doc empty_server.

(** The diagnostics test: a short line, then 85 times the letter a. *)
Definition long_line_doc : TextDocument :=
  {| uri := str "file://testDiagnostics.js";
     getText := str "Short line" ++ [LF] ++ replicate 85 97%N |}.

(** A table entry for a uri the documents manager does not hold: the
    document was indexed but never stored. *)
Definition unmanaged_server : Server :=
  parseDocumentSymbols one_line_doc empty_server.

(** A document the manager holds under the uri [constructor] while the
    table has nothing for it: it was stored but not indexed. *)
Definition unindexed_server : Server :=
  {| symbolTable := ∅;
     documents := {[ str "constructor" :=
                       {| uri := str "constructor";
                          getText := str "let myVar = 10;" |} ]};
     sent := [] |}.

(** ** Further notions *)

(** The lexicographic order on positions. *)
Definition pos_le (p q : Position) : Prop :=
  line p < line q ∨ (line p = line q ∧ character p ≤ character q).

(** The line a diagnostic, a symbol, a location or an edit is on. *)
Definition diag_line (d : Diagnostic) : Z := line (start (diag_range d)).
Definition sym_line (s : Symbol) : Z := line (start (range s)).
Definition loc_line (l : Location) : Z := line (start (loc_range l)).
Definition edit_line (e : TextEdit) : Z := line (start (edit_range e)).

(** A relation holding between every earlier and every later element. *)
Definition ordered {A : Type} (R : A → A → Prop) (l : list A) : Prop :=
  ∀ (i j : nat) a b, (i < j)%nat → l !! i = Some a → l !! j = Some b → R a b.

(** Strictly increasing keys along a list. *)
Definition increasing {A : Type} (key : A → Z) (l : list A) : Prop :=
  ordered (λ a b, key a < key b) l.

(** Table order: by line, and on one line the variable before the function. *)
Definition sym_before (a b : Symbol) : Prop :=
  sym_line a < sym_line b
  ∨ (sym_line a = sym_line b ∧ type a = TyVariable ∧ type b = TyFunction).

(** A second document for the uri of the tests, and one for another uri. *)
Definition other_doc : TextDocument :=
  {| uri := str "file://other.js"; getText := str "const k = 1;" |}.

(** Lines put together again, with a line feed between two lines. *)
Fixpoint join_lines (lines : list jsstring) : jsstring :=
  match lines with
  | [] => []
  | [l] => l
  | l :: rest => l ++ [LF] ++ join_lines rest
  end.

(** The number of line feeds of a text. *)
Definition count_LF (text : jsstring) : nat :=
  length (filter (λ c, c = LF) text).

(** Columns [a], ..., [b - 1] of a line hold identifier characters. *)
Definition ident_run (l : jsstring) (a b : nat) : Prop :=
  (a ≤ b ≤ length l)%nat
  ∧ ∀ x, (a ≤ x < b)%nat → ∃ c, l !! x = Some c ∧ is_ident_char c = true.

Definition not_ident_at (l : jsstring) (x : nat) : Prop :=
  ∃ c, l !! x = Some c ∧ is_ident_char c = false.

(** Such a run that cannot be extended to either side. *)
Definition maximal_run (l : jsstring) (a b : nat) : Prop :=
  ident_run l a b
  ∧ (a = 0%nat ∨ not_ident_at l (a - 1))
  ∧ (b = length l ∨ not_ident_at l b).

(** ** What a pattern matches

    [matches s r i c j c']: pattern [r] matches the code units [i], ...,
    [j - 1] of [s], and takes the capture [c] to [c'].  This says which
    matches exist; [rmatch] says in which order they are tried. *)
Inductive matches (s : jsstring) : regex → nat → capture → nat → capture → Prop :=
| M_char c i cap :
    s !! i = Some c → matches s (RChar c) i cap (S i) cap
| M_class p d i cap :
    s !! i = Some d → p d = true → matches s (RClass p) i cap (S i) cap
| M_wordb i cap :
    xorb (word_before s i) (word_at s i) = true → matches s RWordB i cap i cap
| M_seq r1 r2 i j k c0 c1 c2 :
    matches s r1 i c0 j c1 → matches s r2 j c1 k c2 →
    matches s (RSeq r1 r2) i c0 k c2
| M_alt_l r1 r2 i j c c' :
    matches s r1 i c j c' → matches s (RAlt r1 r2) i c j c'
| M_alt_r r1 r2 i j c c' :
    matches s r2 i c j c' → matches s (RAlt r1 r2) i c j c'
| M_star p i j cap :
    (i ≤ j)%nat →
    (∀ x, (i ≤ x < j)%nat → ∃ d, s !! x = Some d ∧ p d = true) →
    matches s (RStar p) i cap j cap
| M_group r i j c c' :
    matches s r i c j c' → matches s (RGroup r) i c j (Some (i, j)).

(** The closing character of a declaration shape. *)
Definition closer (t : SymbolType) : N :=
  match t with
  | TyVariable => 61
  | TyFunction => 40
  end.

Definition keyword_of (t : SymbolType) (kw : jsstring) : Prop :=
  match t with
  | TyVariable => kw = str "let" ∨ kw = str "const"
  | TyFunction => kw = str "function"
  end.

(** Line [l] holds, from offset [i] on, a declaration of [name] of shape
    [t]: the keyword, not directly after a word character, then white
    space, the name, optional white space and the closing character. *)
Definition declares (t : SymbolType) (l : jsstring) (i : nat) (name : jsstring)
  : Prop :=
  ∃ kw ws ws',
    keyword_of t kw
    ∧ ws ≠ [] ∧ Forall (λ c, is_space c = true) ws
    ∧ name ≠ [] ∧ Forall (λ c, is_ident_char c = true) name
    ∧ Forall (λ c, is_space c = true) ws'
    ∧ occurs_at (kw ++ ws ++ name ++ ws' ++ [closer t]) l i
    ∧ word_before l i = false.

(** The two patterns, cut into keyword and rest. *)
Definition kw_regex (t : SymbolType) : regex :=
  match t with
  | TyVariable => RAlt (RLit (str "let")) (RLit (str "const"))
  | TyFunction => RLit (str "function")
  end.

Definition decl_tail (t : SymbolType) : regex :=
  RSeq (RPlus is_space)
    (RSeq (RGroup (RPlus is_ident_char))
       (RSeq (RStar is_space) (RChar (closer t)))).

(** Columns [a], ..., [b - 1] of a line all satisfy [p]. *)
Definition all_in (l : jsstring) (p : N → bool) (a b : nat) : Prop :=
  ∀ x, (a ≤ x < b)%nat → ∃ d, l !! x = Some d ∧ p d = true.

(** * Properties *)

(** ** Worked examples of the pattern matcher *)

Example varRegex_ex1 :
  js_match varRegex (str "let myVar = 10;")
  = Some {| m_index := 0; m_whole := str "let myVar ="; m_group1 := Some (str "myVar") |}.
Proof. vm_compute. reflexivity. Qed.

Example varRegex_ex2 :
  js_match varRegex (str "xlet a = 1; const  b2$=3; let c = 4")
  = Some {| m_index := 12; m_whole := str "const  b2$="; m_group1 := Some (str "b2$") |}.
Proof. vm_compute. reflexivity. Qed.

Example funcRegex_ex1 :
  js_match funcRegex (str "let ab = function b(")
  = Some {| m_index := 9; m_whole := str "function b("; m_group1 := Some (str "b") |}.
Proof. vm_compute. reflexivity. Qed.

Example split_ex :
  split_lines [97; 13; 10; 98; 10; 13; 13; 10; 99; 13]%N
  = [[97]; [98]; [13]; [99; 13]]%N.
Proof. reflexivity. Qed.

(** ** Occurrences of a string in a string *)

Lemma is_prefix_true w h : is_prefix w h = true ↔ occurs_at w h 0.
Proof.
  revert h. induction w as [|a w IH]; intros h; simpl.
  - split; [|done]. intros _. by exists [], h.
  - destruct h as [|b h].
    + split; [done|]. intros (pre & post & E & L).
      destruct pre; [discriminate E | discriminate L].
    + rewrite andb_true_iff, N.eqb_eq, IH. split.
      * intros [-> (pre & post & -> & L)].
        destruct pre; [|discriminate L]. by exists [], post.
      * intros (pre & post & E & L).
        destruct pre; [|discriminate L]. simpl in E. injection E as -> ->.
        split; [done|]. by exists [], post.
Qed.

Lemma occurs_at_cons w c h n : occurs_at w (c :: h) (S n) ↔ occurs_at w h n.
Proof.
  split.
  - intros (pre & post & E & L). destruct pre as [|d pre]; [discriminate L|].
    injection E as -> ->. injection L as L. by exists pre, post.
  - intros (pre & post & -> & L). exists (c :: pre), post. simpl. by rewrite L.
Qed.

Lemma indexOf_from_cases h w i :
  (indexOf_from h w i = -1 ∧ ¬ occurs w h)
  ∨ (∃ n, indexOf_from h w i = i + Z.of_nat n ∧ first_occurrence w h n).
Proof.
  revert i. induction h as [|c h IH]; intros i; simpl.
  - destruct (is_prefix w []) eqn:P.
    + right. exists 0%nat. split; [lia|]. split; [by apply is_prefix_true|lia].
    + left. split; [done|]. intros [n (pre & post & E & L)].
      destruct pre; [|discriminate E]. simpl in L. subst n.
      assert (is_prefix w [] = true) as P'; [|congruence].
      apply is_prefix_true. by exists [], post.
  - destruct (is_prefix w (c :: h)) eqn:P.
    + right. exists 0%nat. split; [lia|]. split; [by apply is_prefix_true|lia].
    + assert (¬ occurs_at w (c :: h) 0) as N0.
      { intros H. apply is_prefix_true in H. congruence. }
      destruct (IH (i + 1)) as [[E N]|(n & E & F & M)].
      * left. split; [done|]. intros [[|m] H]; [done|].
        apply N. exists m. by apply occurs_at_cons in H.
      * right. exists (S n). split; [lia|]. split; [by apply occurs_at_cons|].
        intros [|m] H; [done|]. apply occurs_at_cons in H. apply M in H. lia.
Qed.

Lemma indexOf_found h w :
  occurs w h → ∃ n, indexOf h w = Z.of_nat n ∧ first_occurrence w h n.
Proof.
  intros O. destruct (indexOf_from_cases h w 0) as [[_ N]|(n & E & F)]; [done|].
  exists n. by split.
Qed.

Lemma indexOf_not_found h w : ¬ occurs w h → indexOf h w = -1.
Proof.
  intros N. destruct (indexOf_from_cases h w 0) as [[E _]|(n & _ & F & _)]; [done|].
  destruct N. by exists n.
Qed.

Lemma indexOf_neg h w : indexOf h w = -1 → ¬ occurs w h.
Proof.
  intros E. destruct (indexOf_from_cases h w 0) as [[_ N]|(n & E' & _)]; [done|].
  unfold indexOf in E. lia.
Qed.

Lemma substring_in_bounds s a b :
  0 ≤ a ≤ b → b ≤ len s →
  substring s a b = take (Z.to_nat (b - a)) (drop (Z.to_nat a) s).
Proof.
  intros Ha Hb. unfold substring, clamp.
  rewrite (Z.min_l a), (Z.min_l b), (Z.max_r 0 a), (Z.max_r 0 b) by lia.
  by rewrite Z.min_l, Z.max_r by lia.
Qed.

Lemma substring_occurs_at w h n :
  occurs_at w h n → substring h (Z.of_nat n) (Z.of_nat n + len w) = w.
Proof.
  intros (pre & post & -> & L). subst n. unfold len.
  rewrite substring_in_bounds.
  - rewrite Nat2Z.id, drop_app_length.
    replace (Z.to_nat _) with (length w) by lia. by rewrite take_app_length.
  - lia.
  - unfold len. rewrite !length_app. lia.
Qed.

Lemma slice_occurs s a b :
  (a ≤ b)%nat → (b ≤ length s)%nat → occurs_at (slice s a b) s a.
Proof.
  intros Hab Hb. exists (take a s), (drop b s). split.
  - unfold slice. rewrite <- (take_drop a s) at 1. f_equal.
    rewrite <- (take_drop (b - a) (drop a s)) at 1. f_equal.
    rewrite drop_drop. f_equal. lia.
  - rewrite length_take. lia.
Qed.

(** ** Reading the symbol table *)

Lemma docSymbols_of_entry (tbl : gmap jsstring (list Symbol)) u a :
  tbl !! u = Some a → docSymbols_of tbl u = Some a.
Proof. intros H. unfold docSymbols_of, table_get. by rewrite H. Qed.

Lemma inherits_entry (tbl : gmap jsstring (list Symbol)) u a :
  tbl !! u = Some a → inherits tbl u = false.
Proof. intros H. unfold inherits. by rewrite (docSymbols_of_entry tbl u a H). Qed.

Lemma docSymbols_of_inherits (tbl : gmap jsstring (list Symbol)) u :
  inherits tbl u = false → docSymbols_of tbl u = Some (default [] (tbl !! u)).
Proof.
  unfold inherits, docSymbols_of, table_get.
  destruct (tbl !! u) as [a|]; [done|].
  repeat case_match; done.
Qed.

Lemma docSymbols_of_None (tbl : gmap jsstring (list Symbol)) u :
  docSymbols_of tbl u = None ↔ inherits tbl u = true.
Proof. unfold inherits. by destruct (docSymbols_of tbl u). Qed.

(** As long as no array has been installed as prototype, the inherited
    names are those of [Object.prototype]. *)
Lemma inherits_plain (tbl : gmap jsstring (list Symbol)) u :
  tbl !! str "__proto__" = None →
  inherits tbl u = true ↔ tbl !! u = None ∧ u ∈ object_prototype_names.
Proof.
  intros Hp. unfold inherits, docSymbols_of, table_get.
  destruct (tbl !! u) as [a|]; [by split; [|intros []]|]. rewrite Hp.
  destruct (bool_decide_reflect (u ∈ object_prototype_names)); by split; [|intros []].
Qed.

Example constructor_inherited :
  inherits ∅ (str "constructor") = true ∧ inherits ∅ test_uri = false.
Proof. by vm_compute. Qed.

(** ** The matcher only ever reports positions of the subject string *)

Lemma greedy_inv {A : Type} (k : nat → option A) i n res :
  greedy k i n = Some res → ∃ m, (m ≤ n)%nat ∧ k (i + m)%nat = Some res.
Proof.
  induction n as [|n IH]; simpl.
  - destruct (k (i + 0)%nat) eqn:E; [|done]. intros [= ->]. by exists 0%nat.
  - destruct (k (i + S n)%nat) eqn:E.
    + intros [= ->]. by exists (S n).
    + intros H. destruct (IH H) as (m & Hm & Hk). exists m. split; [lia|done].
Qed.

Lemma run_length_le p (s : jsstring) : (run_length p s ≤ length s)%nat.
Proof.
  induction s as [|c s IH]; simpl; [lia|]. destruct (p c); simpl; lia.
Qed.

Lemma rmatch_inv {A : Type} (s : jsstring) (r : regex) :
  ∀ i cap (k : nat → capture → option A) res,
    (i ≤ length s)%nat → cap_ok s cap →
    rmatch s r i cap k = Some res →
    ∃ j cap', (i ≤ j ≤ length s)%nat ∧ cap_ok s cap' ∧ k j cap' = Some res.
Proof.
  induction r as [c|p| |r1 IH1 r2 IH2|r1 IH1 r2 IH2|p|r IH];
    intros i cap k res Hi Hc; simpl.
  - destruct (s !! i) as [d|] eqn:E; [|done].
    apply lookup_lt_Some in E. destruct (c =? d)%N; [|done].
    intros H. exists (S i), cap. split; [lia|done].
  - destruct (s !! i) as [d|] eqn:E; [|done].
    apply lookup_lt_Some in E. destruct (p d); [|done].
    intros H. exists (S i), cap. split; [lia|done].
  - destruct (xorb _ _); [|done]. intros H. exists i, cap. split; [lia|done].
  - intros H. apply IH1 in H as (j1 & c1 & Hj1 & Hc1 & H); [|done..].
    apply IH2 in H as (j2 & c2 & Hj2 & Hc2 & H); [|lia|done].
    exists j2, c2. split; [lia|done].
  - destruct (rmatch s r1 i cap k) eqn:E.
    + intros [= ->]. by apply IH1 in E.
    + by apply IH2.
  - intros H. apply greedy_inv in H as (m & Hm & H).
    pose proof (run_length_le p (drop i s)) as L. rewrite length_drop in L.
    exists (i + m)%nat, cap. split; [lia|done].
  - intros H. apply IH in H as (j & c' & Hj & _ & H); [|done..].
    exists j, (Some (i, j)). split; [done|]. split; [simpl; lia|done].
Qed.

Lemma exec_from_inv r (s : jsstring) fuel :
  ∀ i i' j c, (i + fuel ≤ length s)%nat →
    exec_from r s i fuel = Some (i', j, c) →
    (i' ≤ j ≤ length s)%nat ∧ cap_ok s c.
Proof.
  induction fuel as [|f IH]; intros i i' j c Hi; simpl.
  - destruct (rmatch _ _ _ _ _) eqn:E; [|done]. intros [= ->].
    apply rmatch_inv in E as (j' & c' & Hj & Hc & [= <- <- <-]); [done|lia|done].
  - destruct (rmatch _ _ _ _ _) eqn:E.
    + intros [= ->].
      apply rmatch_inv in E as (j' & c' & Hj & Hc & [= <- <- <-]); [done|lia|done].
    + apply IH. lia.
Qed.

(** What [m[1]] holds is a piece of the matched line. *)
Lemma js_match_group_occurs r (s : jsstring) m g :
  js_match r s = Some m → m_group1 m = Some g → occurs g s.
Proof.
  unfold js_match. destruct (exec_from r s 0 (length s)) as [[[i j] c]|] eqn:E; [|done].
  apply exec_from_inv in E as [_ Hc]; [|lia].
  intros [= <-]. simpl. destruct c as [[a b]|]; [|done]. simpl in *.
  intros [= <-]. exists a. apply slice_occurs; lia.
Qed.

(** ** Symbol indexing *)

Lemma record_match_insert u i l t base a :
  record_match u i l (js_match (regex_of t) l) t (<[u := a]> base)
  = <[u := a ++ shape_symbol u i l t]> base.
Proof.
  unfold record_match, shape_symbol.
  destruct (js_match (regex_of t) l) as [[ix wh [[|c cs]|]]|];
    rewrite ?app_nil_r; try done.
  unfold push_symbol. by rewrite alter_insert_eq.
Qed.

Lemma parse_loop_scan u lines :
  ∀ i base a,
    parse_loop u lines i (<[u := a]> base)
    = <[u := a ++ scan_spec u lines i]> base.
Proof.
  induction lines as [|l rest IH]; intros i base a; simpl.
  - by rewrite app_nil_r.
  - rewrite (record_match_insert u i l TyVariable).
    rewrite (record_match_insert u i l TyFunction).
    rewrite IH. by rewrite <- !app_assoc.
Qed.

Lemma parseDocumentSymbols_lookup doc σ :
  symbolTable (parseDocumentSymbols doc σ) !! uri doc
  = Some (scan_spec (uri doc) (split_lines (getText doc)) 0).
Proof.
  unfold parseDocumentSymbols. simpl.
  rewrite <- (insert_insert_eq (symbolTable σ) (uri doc) [] []) at 1.
  rewrite parse_loop_scan. by rewrite lookup_insert_eq.
Qed.

Lemma parseDocumentSymbols_frame doc σ u :
  u ≠ uri doc →
  symbolTable (parseDocumentSymbols doc σ) !! u = symbolTable σ !! u.
Proof.
  intros Hu. unfold parseDocumentSymbols. simpl.
  rewrite <- (insert_insert_eq (symbolTable σ) (uri doc) [] []) at 1.
  rewrite parse_loop_scan. by rewrite !lookup_insert_ne.
Qed.

Lemma shape_symbol_length u i l t : (length (shape_symbol u i l t) ≤ 1)%nat.
Proof.
  unfold shape_symbol.
  destruct (js_match (regex_of t) l) as [[ix wh [[|c cs]|]]|]; simpl; lia.
Qed.

Lemma shape_symbol_elem u i l t sym :
  sym ∈ shape_symbol u i l t →
  ∃ m n, js_match (regex_of t) l = Some m
         ∧ m_group1 m = Some (name sym)
         ∧ name sym ≠ []
         ∧ first_occurrence (name sym) l n
         ∧ type sym = t ∧ docUri sym = u
         ∧ range sym = mkRange i (Z.of_nat n) (Z.of_nat n + len (name sym)).
Proof.
  unfold shape_symbol.
  destruct (js_match (regex_of t) l) as [[ix wh [[|c cs]|]]|] eqn:E;
    try (intros H; by apply elem_of_nil in H).
  intros H. apply list_elem_of_singleton in H. subst sym. simpl.
  destruct (indexOf_found l (c :: cs)) as (n & En & F).
  { by eapply js_match_group_occurs. }
  exists {| m_index := ix; m_whole := wh; m_group1 := Some (c :: cs) |}, n.
  rewrite En. split_and!; done.
Qed.

Lemma scan_spec_elem u lines :
  ∀ i sym, sym ∈ scan_spec u lines i →
    ∃ (j : nat) l, lines !! j = Some l
                   ∧ sym ∈ shape_symbol u (i + Z.of_nat j) l (type sym).
Proof.
  induction lines as [|l rest IH]; intros i sym; simpl.
  - intros H. by apply elem_of_nil in H.
  - rewrite !elem_of_app. intros [H|[H|H]].
    + exists 0%nat, l. split; [done|]. rewrite Z.add_0_r.
      destruct (shape_symbol_elem _ _ _ _ _ H) as (?&?&?&?&?&?&->&?). done.
    + exists 0%nat, l. split; [done|]. rewrite Z.add_0_r.
      destruct (shape_symbol_elem _ _ _ _ _ H) as (?&?&?&?&?&?&->&?). done.
    + apply IH in H as (j & l' & Hl & H). exists (S j), l'. split; [done|].
      by replace (i + Z.of_nat (S j)) with (i + 1 + Z.of_nat j) by lia.
Qed.

Lemma filter_none {A : Type} (P : A → Prop) `{∀ x, Decision (P x)} (l : list A) :
  (∀ x, x ∈ l → ¬ P x) → filter P l = [].
Proof.
  induction l as [|x l IH]; intros H'; [done|].
  rewrite filter_cons. destruct (decide (P x)) as [Hx|_].
  - destruct (H' x); [left|done].
  - apply IH. intros y Hy. apply H'. by right.
Qed.

Lemma scan_spec_per_line u lines (t : SymbolType) (j : Z) :
  ∀ i, (length (filter (λ s, type s = t ∧ line (start (range s)) = j)
                  (scan_spec u lines i)) ≤ 1)%nat.
Proof.
  induction lines as [|l rest IH]; intros i; simpl; [lia|].
  rewrite !filter_app, !length_app.
  destruct (decide (j = i)) as [->|Hj].
  - rewrite (filter_none _ (scan_spec u rest (i + 1))).
    2:{ intros s Hs [_ Hl]. apply scan_spec_elem in Hs as (k & l' & _ & Hs).
        apply shape_symbol_elem in Hs as (?&?&_&_&_&_&_&_&Hr).
        rewrite Hr in Hl. simpl in Hl. lia. }
    destruct t.
    + rewrite (filter_none _ (shape_symbol u i l TyFunction)).
      2:{ intros s Hs [Ht _].
          apply shape_symbol_elem in Hs as (?&?&_&_&_&_&Ht'&_). congruence. }
      pose proof (length_filter (λ s, type s = TyVariable ∧ line (start (range s)) = i)
                    (shape_symbol u i l TyVariable)).
      pose proof (shape_symbol_length u i l TyVariable). simpl. lia.
    + rewrite (filter_none _ (shape_symbol u i l TyVariable)).
      2:{ intros s Hs [Ht _].
          apply shape_symbol_elem in Hs as (?&?&_&_&_&_&Ht'&_). congruence. }
      pose proof (length_filter (λ s, type s = TyFunction ∧ line (start (range s)) = i)
                    (shape_symbol u i l TyFunction)).
      pose proof (shape_symbol_length u i l TyFunction). simpl. lia.
  - rewrite (filter_none _ (shape_symbol u i l TyVariable)).
    2:{ intros s Hs [_ Hl].
        apply shape_symbol_elem in Hs as (?&?&_&_&_&_&_&_&Hr).
        rewrite Hr in Hl. simpl in Hl. lia. }
    rewrite (filter_none _ (shape_symbol u i l TyFunction)).
    2:{ intros s Hs [_ Hl].
        apply shape_symbol_elem in Hs as (?&?&_&_&_&_&_&_&Hr).
        rewrite Hr in Hl. simpl in Hl. lia. }
    simpl. apply IH.
Qed.

Example sample_table :
  symbolTable sample_server !! test_uri
  = Some [ {| name := str "myVar"; range := mkRange 0 4 9;
              type := TyVariable; docUri := test_uri |};
           {| name := str "myFunc"; range := mkRange 1 9 15;
              type := TyFunction; docUri := test_uri |} ].
Proof. vm_compute. reflexivity. Qed.

(** Only the first declaration of a shape on a line is recorded. *)
Example second_declaration_ignored :
  scan_spec test_uri [str "let a = 1; let b = 2;"] 0
  = [ {| name := str "a"; range := mkRange 0 4 5;
         type := TyVariable; docUri := test_uri |} ].
Proof. vm_compute. reflexivity. Qed.

(** The range is where the name first occurs, not where it was matched:
    here the declaration matches from column 4 on, the range is column 0. *)
Example range_at_first_occurrence :
  (m_index <$> js_match varRegex (str "xx; let x = 1")) = Some 4
  ∧ scan_spec test_uri [str "xx; let x = 1"] 0
    = [ {| name := str "x"; range := mkRange 0 0 1;
           type := TyVariable; docUri := test_uri |} ].
Proof. vm_compute. done. Qed.

(** C1: after indexing, the table entry of the document holds, for every
    line number and each of the two shapes, at most one symbol; every
    recorded symbol is the capture of the leftmost match of its shape on
    some line of the text, and its range lies on that line, from the first
    occurrence of the name in the line to that offset plus the length of
    the name. *)
Theorem parseDocumentSymbols_one_symbol_per_shape (doc : TextDocument) (σ : Server) :
  ∃ syms,
    symbolTable (parseDocumentSymbols doc σ) !! uri doc = Some syms
    ∧ (∀ (t : SymbolType) (i : Z),
          (length (filter (λ s, type s = t ∧ line (start (range s)) = i) syms)
           ≤ 1)%nat)
    ∧ (∀ sym, sym ∈ syms →
          ∃ (i : nat) l m n,
            split_lines (getText doc) !! i = Some l
            ∧ js_match (regex_of (type sym)) l = Some m
            ∧ m_group1 m = Some (name sym)
            ∧ first_occurrence (name sym) l n
            ∧ range sym
              = mkRange (Z.of_nat i) (Z.of_nat n) (Z.of_nat n + len (name sym))).
Proof.
  exists (scan_spec (uri doc) (split_lines (getText doc)) 0).
  split; [apply parseDocumentSymbols_lookup|]. split.
  - intros t i. apply scan_spec_per_line.
  - intros sym Hs. apply scan_spec_elem in Hs as (i & l & Hl & Hs).
    apply shape_symbol_elem in Hs as (m & n & Hm & Hg & _ & F & _ & _ & Hr).
    exists i, l, m, n. by rewrite Z.add_0_l in Hr.
Qed.

Lemma parseDocumentSymbols_one_symbol_per_shape_witness :
  ∃ syms,
    symbolTable (parseDocumentSymbols sample_doc empty_server) !! test_uri
    = Some syms
    ∧ (∀ (t : SymbolType) (i : Z),
          (length (filter (λ s, type s = t ∧ line (start (range s)) = i) syms)
           ≤ 1)%nat)
    ∧ (∀ sym, sym ∈ syms →
          ∃ (i : nat) l m n,
            split_lines sample_text !! i = Some l
            ∧ js_match (regex_of (type sym)) l = Some m
            ∧ m_group1 m = Some (name sym)
            ∧ first_occurrence (name sym) l n
            ∧ range sym
              = mkRange (Z.of_nat i) (Z.of_nat n) (Z.of_nat n + len (name sym))).
Proof. exact (parseDocumentSymbols_one_symbol_per_shape sample_doc empty_server). Defined.

(** C2: after indexing a document, the table entry of its uri is exactly
    the scan of its text, whatever the table held before; the entries of
    other uris are untouched; and every recorded symbol's range lies on one
    line of the text and spells the symbol's name there. *)
Theorem parseDocumentSymbols_replaces_entry (doc : TextDocument) (σ : Server) :
  let lines := split_lines (getText doc) in
  let syms := scan_spec (uri doc) lines 0 in
  symbolTable (parseDocumentSymbols doc σ) !! uri doc = Some syms
  ∧ (∀ u, u ≠ uri doc →
        symbolTable (parseDocumentSymbols doc σ) !! u = symbolTable σ !! u)
  ∧ (∀ sym, sym ∈ syms →
        ∃ (i : nat) l,
          lines !! i = Some l
          ∧ line (start (range sym)) = Z.of_nat i
          ∧ line (end_ (range sym)) = Z.of_nat i
          ∧ occurs (name sym) l
          ∧ substring l (character (start (range sym)))
              (character (end_ (range sym))) = name sym).
Proof.
  intros lines syms. split; [apply parseDocumentSymbols_lookup|].
  split; [intros u Hu; by apply parseDocumentSymbols_frame|].
  intros sym Hs. apply scan_spec_elem in Hs as (i & l & Hl & Hs).
  apply shape_symbol_elem in Hs as (m & n & _ & _ & _ & [F _] & _ & _ & Hr).
  exists i, l. rewrite Hr. simpl. split_and!; try done; try lia.
  - by exists n.
  - by apply substring_occurs_at.
Qed.

Lemma parseDocumentSymbols_replaces_entry_witness :
  symbolTable (parseDocumentSymbols one_line_doc sample_server) !! test_uri
  = Some [ {| name := str "myVar"; range := mkRange 0 4 9;
              type := TyVariable; docUri := test_uri |} ].
Proof.
  exact (proj1 (parseDocumentSymbols_replaces_entry one_line_doc sample_server)).
Defined.

(** ** Diagnostics *)

Lemma validate_loop_app lines :
  ∀ i acc, validate_loop lines i acc = acc ++ validate_loop lines i [].
Proof.
  induction lines as [|l rest IH]; intros i acc; simpl.
  - by rewrite app_nil_r.
  - destruct (len l >? 80).
    + rewrite (IH _ (acc ++ _)), (IH _ [_]). by rewrite <- app_assoc.
    + apply IH.
Qed.

Lemma validate_loop_elem lines :
  ∀ i d, d ∈ validate_loop lines i [] →
    ∃ (j : nat) l, lines !! j = Some l ∧ len l > 80
                   ∧ d = too_long (i + Z.of_nat j) l.
Proof.
  induction lines as [|l rest IH]; intros i d; simpl.
  - intros H. by apply elem_of_nil in H.
  - rewrite validate_loop_app, elem_of_app. intros [H|H].
    + destruct (len l >? 80) eqn:E; [|by apply elem_of_nil in H].
      apply list_elem_of_singleton in H. exists 0%nat, l.
      rewrite Z.add_0_r. split_and!; [done|lia|done].
    + apply IH in H as (j & l' & Hl & Hlen & ->). exists (S j), l'.
      split_and!; [done..|]. f_equal. lia.
Qed.

Lemma validate_loop_filter lines :
  ∀ i (j : nat) l, lines !! j = Some l →
    filter (λ d, line (start (diag_range d)) = i + Z.of_nat j)
      (validate_loop lines i [])
    = if len l >? 80 then [too_long (i + Z.of_nat j) l] else [].
Proof.
  induction lines as [|l0 rest IH]; intros i j l Hl; [done|]. simpl.
  rewrite validate_loop_app, filter_app. destruct j as [|j]; simpl in Hl.
  - injection Hl as ->. rewrite Z.add_0_r.
    rewrite (filter_none _ (validate_loop rest (i + 1) [])).
    2:{ intros d Hd Hline. apply validate_loop_elem in Hd as (k & l' & _ & _ & ->).
        simpl in Hline. lia. }
    rewrite app_nil_r. destruct (len l >? 80); [|done].
    by rewrite filter_cons_True.
  - rewrite filter_none.
    2:{ intros d Hd Hline. destruct (len l0 >? 80); [|by apply elem_of_nil in Hd].
        apply list_elem_of_singleton in Hd. subst d. simpl in Hline. lia. }
    replace (i + Z.of_nat (S j)) with (i + 1 + Z.of_nat j) by lia.
    by apply IH.
Qed.

(** C4: the diagnostics returned (and published) for a document are exactly
    those of its lines longer than 80: none on a line of length at most 80,
    and on a line of length n above 80 exactly one, a Warning (severity 2)
    ranging from character 80 to character n of that line with the fixed
    message and source; so a line of 85 gets the one range from 80 to 85. *)
Theorem validateTextDocument_line_length (doc : TextDocument) (σ : Server) :
  let lines := split_lines (getText doc) in
  let diagnostics := fst (validateTextDocument doc σ) in
  let on_line (i : nat) :=
    filter (λ d, line (start (diag_range d)) = Z.of_nat i) diagnostics in
  let warning (i : nat) (n : Z) :=
    {| severity := 2;
       diag_range := {| start := {| line := Z.of_nat i; character := 80 |};
                        end_ := {| line := Z.of_nat i; character := n |} |};
       message := str "Line exceeds 80 characters.";
       source := str "demo-lsp" |} in
  (∀ (i : nat) l, lines !! i = Some l → len l ≤ 80 → on_line i = [])
  ∧ (∀ (i : nat) l, lines !! i = Some l → len l > 80 →
        on_line i = [warning i (len l)])
  ∧ (∀ (i : nat) l, lines !! i = Some l → len l = 85 →
        on_line i = [warning i 85])
  ∧ (∀ d, d ∈ diagnostics →
        ∃ (i : nat) l, lines !! i = Some l ∧ len l > 80
                       ∧ d = warning i (len l))
  ∧ sent (snd (validateTextDocument doc σ))
    = sent σ ++ [(uri doc, diagnostics)].
Proof.
  intros lines diagnostics on_line warning.
  assert (∀ (i : nat) l, lines !! i = Some l →
            on_line i = if len l >? 80 then [warning i (len l)] else []) as F.
  { intros i l Hl. unfold on_line, diagnostics. simpl.
    pose proof (validate_loop_filter lines 0 i l Hl) as H.
    rewrite Z.add_0_l in H. exact H. }
  split_and!.
  - intros i l Hl Hlen. rewrite (F i l Hl).
    destruct (len l >? 80) eqn:E; [lia|done].
  - intros i l Hl Hlen. rewrite (F i l Hl).
    destruct (len l >? 80) eqn:E; [done|lia].
  - intros i l Hl Hlen. rewrite (F i l Hl), Hlen. done.
  - intros d Hd. apply validate_loop_elem in Hd as (i & l & Hl & Hlen & ->).
    exists i, l. by rewrite Z.add_0_l.
  - done.
Qed.

Lemma validateTextDocument_line_length_witness :
  filter (λ d, line (start (diag_range d)) = 1)
    (fst (validateTextDocument long_line_doc empty_server))
  = [ {| severity := 2; diag_range := mkRange 1 80 85;
         message := str "Line exceeds 80 characters.";
         source := str "demo-lsp" |} ].
Proof.
  exact (proj1 (proj2 (proj2
           (validateTextDocument_line_length long_line_doc empty_server)))
           1%nat (replicate 85 97%N) eq_refl eq_refl).
Defined.

(** ** Word extraction *)

Lemma split_go_nonempty s : ∀ cur, (1 ≤ length (split_go cur s))%nat.
Proof.
  induction s as [|c s IH]; intros cur; simpl; [lia|].
  destruct (c =? LF)%N; [simpl; lia|].
  destruct (c =? CR)%N; [|apply IH].
  destruct s as [|d s]; [simpl; lia|].
  destruct (d =? LF)%N; [simpl; lia|apply IH].
Qed.

Lemma split_lines_nonempty text : 1 ≤ len (split_lines text).
Proof. pose proof (split_go_nonempty text []). unfold len, split_lines. lia. Qed.

(** Both loops are run with enough fuel: they stop because their
    condition fails. *)
Lemma left_loop_exit lineText :
  ∀ fuel start, start ≤ Z.of_nat fuel →
    let r := left_loop lineText fuel start in
    (r >? 0) && test_ident (js_index lineText (r - 1)) = false.
Proof.
  induction fuel as [|f IH]; intros start Hf; simpl.
  - replace (start >? 0) with false by lia. done.
  - destruct ((start >? 0) && test_ident (js_index lineText (start - 1))) eqn:E.
    + apply IH. lia.
    + exact E.
Qed.

Lemma right_loop_exit lineText :
  ∀ fuel e, len lineText - e ≤ Z.of_nat fuel →
    let r := right_loop lineText fuel e in
    (r <? len lineText) && test_ident (js_index lineText r) = false.
Proof.
  induction fuel as [|f IH]; intros e Hf; simpl.
  - replace (e <? len lineText) with false by lia. done.
  - destruct ((e <? len lineText) && test_ident (js_index lineText e)) eqn:E.
    + apply IH. lia.
    + exact E.
Qed.

Lemma js_index_in_range {A : Type} (l : list A) (i : Z) :
  0 ≤ i < len l → is_Some (js_index l i).
Proof.
  intros H. unfold js_index. replace (i <? 0) with false by lia.
  apply lookup_lt_is_Some. unfold len in H. lia.
Qed.

(** A negative line reads [lines[line]] as [undefined]. *)
Lemma getWordAtPosition_negative_line doc ln ch :
  ln < 0 → getWordAtPosition doc ln ch = Throw TypeError.
Proof.
  intros H. unfold getWordAtPosition.
  pose proof (split_lines_nonempty (getText doc)).
  replace (ln >=? _) with false by lia.
  unfold js_index. by replace (ln <? 0) with true by lia.
Qed.

Lemma getWordAtPosition_normal doc ln ch :
  0 ≤ ln → ∃ w, getWordAtPosition doc ln ch = Normal w.
Proof.
  intros H. unfold getWordAtPosition.
  destruct (ln >=? len (split_lines (getText doc))) eqn:E; [by eexists|].
  destruct (js_index_in_range (split_lines (getText doc)) ln) as [l ->]; [lia|].
  destruct (ch >=? len l); by eexists.
Qed.

(** Inside the text, the answer is the substring between the two places
    where the loops stop. *)
Lemma getWordAtPosition_word doc ln ch l :
  js_index (split_lines (getText doc)) ln = Some l →
  ln < len (split_lines (getText doc)) → ch < len l →
  ∃ a b,
    getWordAtPosition doc ln ch = Normal (Some (substring l a b))
    ∧ (a >? 0) && test_ident (js_index l (a - 1)) = false
    ∧ (b <? len l) && test_ident (js_index l b) = false.
Proof.
  intros Hl Hln Hch. unfold getWordAtPosition.
  replace (ln >=? _) with false by lia. rewrite Hl.
  replace (ch >=? len l) with false by lia.
  eexists _, _. split_and!; [done| |].
  - apply left_loop_exit. lia.
  - apply right_loop_exit. lia.
Qed.

Example getWordAtPosition_myVar :
  getWordAtPosition one_line_doc 0 6 = Normal (Some (str "myVar")).
Proof. vm_compute. reflexivity. Qed.

Example getWordAtPosition_far_right :
  getWordAtPosition one_line_doc 0 100 = Normal None.
Proof. vm_compute. reflexivity. Qed.

(** C3 (as stated, fails): with line -1 the word locator raises instead of
    returning null, and with character -1 on an existing line it returns
    the word at column 0. *)
Lemma getWordAtPosition_negative_counterexample :
  getWordAtPosition one_line_doc (-1) 0 = Throw TypeError
  ∧ getWordAtPosition one_line_doc 0 (-1) = Normal (Some (str "let"))
  ∧ ¬ (∀ ln ch,
         (¬ (0 ≤ ln < len (split_lines (getText one_line_doc)))
          ∨ ∀ l, js_index (split_lines (getText one_line_doc)) ln = Some l →
                 ¬ (0 ≤ ch < len l)) →
         getWordAtPosition one_line_doc ln ch = Normal None).
Proof.
  split_and!; [by vm_compute..|].
  intros H. specialize (H (-1) 0). discriminate H. left. lia.
Qed.

(** C3 (amended): for a line number that is not negative, a line at or
    past the line count, or a character at or past the length of the line
    (the end-of-line column included), gives null and raises nothing. *)
Theorem getWordAtPosition_out_of_bounds (doc : TextDocument) (ln ch : Z) :
  let lines := split_lines (getText doc) in
  0 ≤ ln →
  (len lines ≤ ln ∨ ∃ l, js_index lines ln = Some l ∧ len l ≤ ch) →
  getWordAtPosition doc ln ch = Normal None.
Proof.
  intros lines Hln [H|(l & Hl & H)]; unfold getWordAtPosition; fold lines.
  - by replace (ln >=? len lines) with true by lia.
  - destruct (ln >=? len lines); [done|]. rewrite Hl.
    by replace (ch >=? len l) with true by lia.
Qed.

Lemma getWordAtPosition_out_of_bounds_witness :
  getWordAtPosition one_line_doc 0 15 = Normal None
  ∧ getWordAtPosition one_line_doc 1 0 = Normal None.
Proof.
  split.
  - apply (getWordAtPosition_out_of_bounds one_line_doc 0 15); [lia|].
    right. exists (str "let myVar = 10;"). split; [reflexivity|]. vm_compute. done.
  - apply (getWordAtPosition_out_of_bounds one_line_doc 1 0); [lia|].
    left. vm_compute. done.
Defined.

(** ** Definition *)

Lemma find_symbol_first word syms :
  ∀ (j : nat) sym,
    syms !! j = Some sym → name sym = word →
    (∀ (j' : nat) sym', (j' < j)%nat → syms !! j' = Some sym' → name sym' ≠ word) →
    find_symbol word syms = Some sym.
Proof.
  induction syms as [|s syms IH]; intros j sym Hj Hn Hfirst; [done|]. simpl.
  destruct (decide (name s = word)) as [Hs|Hs].
  - destruct j as [|j]; [simpl in Hj; congruence|].
    destruct (Hfirst 0%nat s); [lia|done|done].
  - destruct j as [|j]; [simpl in Hj; congruence|].
    apply (IH j); [done..|].
    intros j' sym' Hlt Hl. apply (Hfirst (S j')); [lia|done].
Qed.

Lemma find_symbol_none word syms :
  (∀ sym, sym ∈ syms → name sym ≠ word) → find_symbol word syms = None.
Proof.
  induction syms as [|s syms IH]; intros H; [done|]. simpl.
  destruct (decide (name s = word)) as [Hs|Hs].
  - destruct (H s); [left|done].
  - apply IH. intros sym Hin. apply H. by right.
Qed.

(** C5: definition asks the word locator for the word under the position.
    Without a word (null or the empty string) the answer is null.  With a
    word, and a uri that reads the table (it has an entry, or names nothing
    that the table object inherits), the answer is the location of the
    first symbol, in table order, of that uri whose name is the word, and
    null when no symbol of the table has that name. *)
Theorem handleDefinition_first_named (σ : Server) (u : jsstring) (pos : Position)
        (doc : TextDocument) (w : option jsstring) :
  documents σ !! u = Some doc →
  getWordAtPosition doc (line pos) (character pos) = Normal w →
  let docSymbols := default [] (symbolTable σ !! u) in
  (falsy w = true → handleDefinition σ u pos = Normal None)
  ∧ (∀ word, w = Some word → word ≠ [] →
       inherits (symbolTable σ) u = false →
       (∀ (j : nat) sym,
           docSymbols !! j = Some sym → name sym = word →
           (∀ (j' : nat) sym', (j' < j)%nat → docSymbols !! j' = Some sym' →
                               name sym' ≠ word) →
           handleDefinition σ u pos
           = Normal (Some {| loc_uri := docUri sym; loc_range := range sym |}))
       ∧ ((∀ sym, sym ∈ docSymbols → name sym ≠ word) →
          handleDefinition σ u pos = Normal None)).
Proof.
  intros Hdoc Hw docSymbols. unfold handleDefinition. rewrite Hdoc, Hw. simpl.
  split.
  - by destruct w as [[|c cs]|].
  - intros word -> Hne Hinh. destruct word as [|c cs]; [done|].
    rewrite (docSymbols_of_inherits _ _ Hinh). fold docSymbols. split.
    + intros j sym Hj Hn Hfirst.
      by rewrite (find_symbol_first _ _ j sym Hj Hn Hfirst).
    + intros Hnone. by rewrite find_symbol_none.
Qed.

Lemma handleDefinition_first_named_witness :
  handleDefinition sample_server test_uri {| line := 2; character := 14 |}
  = Normal (Some {| loc_uri := test_uri; loc_range := mkRange 0 4 9 |}).
Proof.
  pose proof (handleDefinition_first_named sample_server test_uri
                {| line := 2; character := 14 |} sample_doc (Some (str "myVar"))
                eq_refl eq_refl) as [_ H].
  destruct (H (str "myVar") eq_refl ltac:(discriminate) eq_refl) as [H1 _].
  apply (H1 0%nat {| name := str "myVar"; range := mkRange 0 4 9;
                     type := TyVariable; docUri := test_uri |} eq_refl eq_refl).
  intros j' sym' Hlt. lia.
Defined.

(** ** References and rename *)

Lemma references_loop_app u word lines :
  ∀ i acc,
    references_loop u word lines i acc = acc ++ references_loop u word lines i [].
Proof.
  induction lines as [|l rest IH]; intros i acc; simpl.
  - by rewrite app_nil_r.
  - destruct (negb (indexOf l word =? -1)).
    + rewrite (IH _ (acc ++ _)), (IH _ [_]). by rewrite <- app_assoc.
    + apply IH.
Qed.

Lemma references_loop_elem u word lines :
  ∀ i loc, loc ∈ references_loop u word lines i [] →
    ∃ (j : nat) l, lines !! j = Some l ∧ indexOf l word ≠ -1
                   ∧ loc = reference_at u word (i + Z.of_nat j) (indexOf l word).
Proof.
  induction lines as [|l rest IH]; intros i loc; simpl.
  - intros H. by apply elem_of_nil in H.
  - rewrite references_loop_app, elem_of_app. intros [H|H].
    + destruct (indexOf l word =? -1) eqn:E; cbn [negb] in H;
        [by apply elem_of_nil in H|].
      apply list_elem_of_singleton in H. exists 0%nat, l.
      rewrite Z.add_0_r. split_and!; [done|lia|done].
    + apply IH in H as (j & l' & Hl & Hidx & ->). exists (S j), l'.
      split_and!; [done..|]. f_equal. lia.
Qed.

Lemma references_loop_filter u word lines :
  ∀ i (j : nat) l, lines !! j = Some l →
    filter (λ loc, line (start (loc_range loc)) = i + Z.of_nat j)
      (references_loop u word lines i [])
    = if indexOf l word =? -1 then []
      else [reference_at u word (i + Z.of_nat j) (indexOf l word)].
Proof.
  induction lines as [|l0 rest IH]; intros i j l Hl; [done|]. simpl.
  rewrite references_loop_app, filter_app. destruct j as [|j]; simpl in Hl.
  - injection Hl as ->. rewrite Z.add_0_r.
    rewrite (filter_none _ (references_loop u word rest (i + 1) [])).
    2:{ intros d Hd Hline.
        apply references_loop_elem in Hd as (k & l' & _ & _ & ->).
        simpl in Hline. lia. }
    rewrite app_nil_r. destruct (indexOf l word =? -1); cbn [negb]; [done|].
    by rewrite filter_cons_True.
  - rewrite filter_none.
    2:{ intros d Hd Hline.
        destruct (indexOf l0 word =? -1); cbn [negb] in Hd;
          [by apply elem_of_nil in Hd|].
        apply list_elem_of_singleton in Hd. subst d. simpl in Hline. lia. }
    replace (i + Z.of_nat (S j)) with (i + 1 + Z.of_nat j) by lia.
    by apply IH.
Qed.

Lemma handleReferences_word σ u pos doc c cs :
  documents σ !! u = Some doc →
  getWordAtPosition doc (line pos) (character pos) = Normal (Some (c :: cs)) →
  handleReferences σ u pos
  = Normal (references_loop u (c :: cs) (split_lines (getText doc)) 0 []).
Proof. intros Hdoc Hw. unfold handleReferences. by rewrite Hdoc, Hw. Qed.

(** C6: when the word locator gives a word at the position, references
    returns, for every line of the text in which the word occurs, exactly
    one location on that line, at the first occurrence of the word there
    and as long as the word; for a line without the word, none; and no
    other locations.  So the line of a declared symbol of that name is
    among them whenever the name stands on that line. *)
Theorem handleReferences_first_per_line (σ : Server) (u : jsstring) (pos : Position)
        (doc : TextDocument) (w : jsstring) :
  documents σ !! u = Some doc →
  getWordAtPosition doc (line pos) (character pos) = Normal (Some w) →
  w ≠ [] →
  let lines := split_lines (getText doc) in
  ∃ locations,
    handleReferences σ u pos = Normal locations
    ∧ (∀ (i : nat) l, lines !! i = Some l → occurs w l →
         ∃ n, first_occurrence w l n
              ∧ filter (λ loc, line (start (loc_range loc)) = Z.of_nat i) locations
                = [ {| loc_uri := u;
                       loc_range := mkRange (Z.of_nat i) (Z.of_nat n)
                                      (Z.of_nat n + len w) |} ])
    ∧ (∀ (i : nat) l, lines !! i = Some l → ¬ occurs w l →
         filter (λ loc, line (start (loc_range loc)) = Z.of_nat i) locations = [])
    ∧ (∀ loc, loc ∈ locations →
         ∃ (i : nat) l, lines !! i = Some l ∧ occurs w l
                        ∧ line (start (loc_range loc)) = Z.of_nat i)
    ∧ (∀ sym (i : nat) l,
         sym ∈ default [] (symbolTable σ !! u) → name sym = w →
         line (start (range sym)) = Z.of_nat i → lines !! i = Some l →
         occurs (name sym) l →
         ∃ loc, loc ∈ locations
                ∧ line (start (loc_range loc)) = line (start (range sym))).
Proof.
  intros Hdoc Hw Hne lines. destruct w as [|c cs]; [done|].
  exists (references_loop u (c :: cs) lines 0 []).
  split; [by apply handleReferences_word|].
  assert (∀ (i : nat) l, lines !! i = Some l → occurs (c :: cs) l →
            ∃ n, first_occurrence (c :: cs) l n
                 ∧ filter (λ loc, line (start (loc_range loc)) = Z.of_nat i)
                     (references_loop u (c :: cs) lines 0 [])
                   = [reference_at u (c :: cs) (Z.of_nat i) (Z.of_nat n)]) as Hocc.
  { intros i l Hl Ho. destruct (indexOf_found l _ Ho) as (n & En & F).
    exists n. split; [done|].
    pose proof (references_loop_filter u (c :: cs) lines 0 i l Hl) as H.
    rewrite Z.add_0_l, En in H. rewrite H.
    by replace (Z.of_nat n =? -1) with false by lia. }
  split_and!.
  - exact Hocc.
  - intros i l Hl Ho.
    pose proof (references_loop_filter u (c :: cs) lines 0 i l Hl) as H.
    rewrite Z.add_0_l in H. rewrite H.
    by rewrite (indexOf_not_found l _ Ho).
  - intros loc Hin. apply references_loop_elem in Hin as (i & l & Hl & Hidx & ->).
    exists i, l. split_and!; [done| |simpl; lia].
    destruct (indexOf_from_cases l (c :: cs) 0) as [[E _]|(n & _ & F & _)]; [done|].
    by exists n.
  - intros sym i l _ Hn Hline Hl Ho. rewrite Hn in Ho.
    destruct (Hocc i l Hl Ho) as (n & _ & Hf).
    exists (reference_at u (c :: cs) (Z.of_nat i) (Z.of_nat n)).
    split; [|by rewrite Hline].
    eapply (proj1 (list_elem_of_filter _ _ _)). rewrite Hf. by left.
Qed.

Lemma handleReferences_first_per_line_witness :
  ∃ locations,
    handleReferences sample_server test_uri {| line := 2; character := 14 |}
    = Normal locations
    ∧ ∃ loc, loc ∈ locations ∧ line (start (loc_range loc)) = 0.
Proof.
  destruct (handleReferences_first_per_line sample_server test_uri
              {| line := 2; character := 14 |} sample_doc (str "myVar")
              eq_refl eq_refl ltac:(discriminate))
    as (locations & Hr & _ & _ & _ & Hdecl).
  exists locations. split; [exact Hr|].
  apply (Hdecl {| name := str "myVar"; range := mkRange 0 4 9;
                   type := TyVariable; docUri := test_uri |}
               0%nat (str "let myVar = 10;")).
  - rewrite sample_table. simpl. left.
  - reflexivity.
  - reflexivity.
  - reflexivity.
  - exists 4%nat, (str "let "), (str " = 10;"). split; reflexivity.
Defined.

Lemma rename_loop_ranges u oldName newName lines :
  ∀ i edits locations,
    edit_range <$> edits = loc_range <$> locations →
    edit_range <$> rename_loop oldName newName lines i edits
    = loc_range <$> references_loop u oldName lines i locations.
Proof.
  induction lines as [|l rest IH]; intros i edits locations H; simpl; [done|].
  apply IH. destruct (negb (indexOf l oldName =? -1)); [|done].
  rewrite !fmap_app, H. done.
Qed.

Lemma rename_loop_newText oldName newName lines :
  ∀ i edits,
    Forall (λ e, newText e = newName) edits →
    Forall (λ e, newText e = newName) (rename_loop oldName newName lines i edits).
Proof.
  induction lines as [|l rest IH]; intros i edits H; simpl; [done|].
  apply IH. destruct (negb (indexOf l oldName =? -1)); [|done].
  apply Forall_app. split; [done|]. by apply Forall_singleton.
Qed.

(** C7: when the word locator gives a word at the position and the new
    name is not empty, rename answers with edits for the one uri of the
    request; there are as many edits as references returns locations for
    the same uri and position, the ranges agree position by position, and
    every edit inserts the new name. *)
Theorem handleRenameRequest_matches_references (σ : Server) (u : jsstring)
        (pos : Position) (newName : jsstring) (doc : TextDocument) (w : jsstring) :
  documents σ !! u = Some doc →
  getWordAtPosition doc (line pos) (character pos) = Normal (Some w) →
  w ≠ [] → newName ≠ [] →
  ∃ locations edits,
    handleReferences σ u pos = Normal locations
    ∧ handleRenameRequest σ u pos newName
      = Normal (Some {| changes := {[ u := edits ]} |})
    ∧ length edits = length locations
    ∧ (∀ (i : nat), edit_range <$> edits !! i = loc_range <$> locations !! i)
    ∧ Forall (λ e, newText e = newName) edits.
Proof.
  intros Hdoc Hw Hne Hnew.
  destruct w as [|c cs]; [done|]. destruct newName as [|d ds]; [done|].
  exists (references_loop u (c :: cs) (split_lines (getText doc)) 0 []),
         (rename_loop (c :: cs) (d :: ds) (split_lines (getText doc)) 0 []).
  pose proof (rename_loop_ranges u (c :: cs) (d :: ds)
                (split_lines (getText doc)) 0 [] [] eq_refl) as Hr.
  split_and!.
  - by apply handleReferences_word.
  - unfold handleRenameRequest. by rewrite Hdoc, Hw.
  - apply (f_equal length) in Hr. by rewrite !length_fmap in Hr.
  - intros i. rewrite <- !list_lookup_fmap. by rewrite Hr.
  - by apply rename_loop_newText.
Qed.

Lemma handleRenameRequest_matches_references_witness :
  ∃ locations edits,
    handleReferences sample_server test_uri {| line := 0; character := 6 |}
    = Normal locations
    ∧ handleRenameRequest sample_server test_uri {| line := 0; character := 6 |}
        (str "newVar")
      = Normal (Some {| changes := {[ test_uri := edits ]} |})
    ∧ length edits = length locations
    ∧ (∀ (i : nat), edit_range <$> edits !! i = loc_range <$> locations !! i)
    ∧ Forall (λ e, newText e = str "newVar") edits.
Proof.
  exact (handleRenameRequest_matches_references sample_server test_uri
           {| line := 0; character := 6 |} (str "newVar") sample_doc (str "myVar")
           eq_refl eq_refl ltac:(discriminate) ltac:(discriminate)).
Defined.

Example rename_sample :
  handleRenameRequest sample_server test_uri {| line := 0; character := 6 |}
    (str "newVar")
  = Normal (Some {| changes :=
      {[ test_uri := [ {| edit_range := mkRange 0 4 9; newText := str "newVar" |};
                       {| edit_range := mkRange 2 14 19; newText := str "newVar" |} ] ]} |}).
Proof. vm_compute. reflexivity. Qed.

(** ** Hover *)

Lemma isPositionInRange_ends l s e :
  s ≤ e →
  isPositionInRange l s (mkRange l s e) = true
  ∧ isPositionInRange l e (mkRange l s e) = true.
Proof.
  intros H. unfold isPositionInRange. simpl.
  replace (l <? l) with false by lia. replace (l >? l) with false by lia.
  replace (s <? s) with false by lia. replace (e >? e) with false by lia.
  replace (e <? s) with false by lia. replace (s >? e) with false by lia.
  by rewrite !andb_false_r.
Qed.

Lemma hover_loop_first ln ch syms :
  ∀ (j : nat) sym,
    syms !! j = Some sym → isPositionInRange ln ch (range sym) = true →
    ∃ h, hover_loop ln ch syms = Some h
         ∧ ((∀ (j' : nat) sym', (j' < j)%nat → syms !! j' = Some sym' →
                                isPositionInRange ln ch (range sym') = false) →
            h = hover_of sym).
Proof.
  induction syms as [|s syms IH]; intros j sym Hj Hin; [done|]. simpl.
  destruct (isPositionInRange ln ch (range s)) eqn:E.
  - exists (hover_of s). split; [done|]. intros Hfirst.
    destruct j as [|j]; [simpl in Hj; congruence|].
    specialize (Hfirst 0%nat s ltac:(lia) eq_refl). congruence.
  - destruct j as [|j]; [simpl in Hj; congruence|].
    destruct (IH j sym Hj Hin) as (h & Hh & Hfirst). exists h. split; [done|].
    intros H. apply Hfirst. intros j' sym' Hlt Hl.
    apply (H (S j')); [lia|done].
Qed.

Example hover_sample :
  handleHover sample_server test_uri {| line := 0; character := 6 |}
  = Normal (Some {| contents_kind := str "markdown";
                    contents_value :=
                      str "**Symbol**: `myVar`" ++ [LF] ++ str "**Type**: `variable`" |}).
Proof. vm_compute. reflexivity. Qed.

(** C9 (as stated, fails): on the line [let ab = function b(] the function
    symbol [b] has range 5 to 6, but hover at either end of that range
    reports the variable [ab], whose range 4 to 6 comes first in the table. *)
Lemma handleHover_shadowed_counterexample :
  let b := {| name := str "b"; range := mkRange 0 5 6;
              type := TyFunction; docUri := test_uri |} in
  let ab := {| name := str "ab"; range := mkRange 0 4 6;
               type := TyVariable; docUri := test_uri |} in
  symbolTable overlap_server !! test_uri = Some [ab; b]
  ∧ handleHover overlap_server test_uri {| line := 0; character := 6 |}
    = Normal (Some (hover_of ab))
  ∧ handleHover overlap_server test_uri {| line := 0; character := 5 |}
    = Normal (Some (hover_of ab))
  ∧ hover_of ab ≠ hover_of b.
Proof. vm_compute. split_and!; [done..|discriminate]. Qed.

(** C9 (amended): containment is inclusive at both ends of a one-line
    range whose start is not after its end, so hover at either end always
    answers; the answer is for the first symbol of the table whose range
    contains the position, hence for that symbol when no earlier symbol's
    range contains the position. *)
Theorem handleHover_inclusive_ends (σ : Server) (u : jsstring)
        (syms : list Symbol) (j : nat) (sym : Symbol) (l s e : Z) :
  symbolTable σ !! u = Some syms →
  syms !! j = Some sym →
  range sym = mkRange l s e →
  s ≤ e →
  isPositionInRange l s (range sym) = true
  ∧ isPositionInRange l e (range sym) = true
  ∧ ∀ c, c = s ∨ c = e →
      ∃ h, handleHover σ u {| line := l; character := c |} = Normal (Some h)
           ∧ ((∀ (j' : nat) sym', (j' < j)%nat → syms !! j' = Some sym' →
                                  isPositionInRange l c (range sym') = false) →
              h = hover_of sym).
Proof.
  intros Ht Hj Hr Hse.
  destruct (isPositionInRange_ends l s e Hse) as [Hs He]. rewrite Hr.
  split_and!; [done..|]. intros c Hc.
  assert (isPositionInRange l c (range sym) = true) as Hin.
  { rewrite Hr. by destruct Hc as [-> | ->]. }
  destruct (hover_loop_first l c syms j sym Hj Hin) as (h & Hh & Hfirst).
  exists h. split; [|done]. unfold handleHover.
  rewrite (docSymbols_of_entry _ _ _ Ht). simpl. by rewrite Hh.
Qed.

Lemma handleHover_inclusive_ends_witness :
  ∃ h, handleHover sample_server test_uri {| line := 0; character := 9 |}
       = Normal (Some h)
       ∧ h = hover_of {| name := str "myVar"; range := mkRange 0 4 9;
                         type := TyVariable; docUri := test_uri |}.
Proof.
  destruct (handleHover_inclusive_ends sample_server test_uri _ 0%nat
              {| name := str "myVar"; range := mkRange 0 4 9;
                 type := TyVariable; docUri := test_uri |} 0 4 9
              sample_table eq_refl eq_refl ltac:(lia)) as (_ & _ & H).
  destruct (H 9 ltac:(right; reflexivity)) as (h & Hh & Hfirst).
  exists h. split; [exact Hh|]. apply Hfirst. intros j' sym' Hlt. lia.
Defined.

(** ** Requests for unknown documents *)

(** C10: for a uri the documents manager does not hold, whatever the
    position and whatever the symbol table contains, definition and rename
    answer null and references answers the empty list.  Hover depends on
    the symbol table alone, and answers with the first symbol of the uri's
    entry when its range contains the position. *)
Theorem handlers_without_document (σ : Server) (u : jsstring) (pos : Position)
        (newName : jsstring) :
  documents σ !! u = None →
  handleDefinition σ u pos = Normal None
  ∧ handleRenameRequest σ u pos newName = Normal None
  ∧ handleReferences σ u pos = Normal []
  ∧ (∀ σ', symbolTable σ' = symbolTable σ →
           handleHover σ' u pos = handleHover σ u pos)
  ∧ (∀ sym rest,
        symbolTable σ !! u = Some (sym :: rest) →
        isPositionInRange (line pos) (character pos) (range sym) = true →
        handleHover σ u pos = Normal (Some (hover_of sym))).
Proof.
  intros Hdoc. split_and!.
  - unfold handleDefinition. by rewrite Hdoc.
  - unfold handleRenameRequest. by rewrite Hdoc.
  - unfold handleReferences. by rewrite Hdoc.
  - intros σ' Ht. unfold handleHover. by rewrite Ht.
  - intros sym rest Ht Hin. unfold handleHover.
    rewrite (docSymbols_of_entry _ _ _ Ht). simpl. by rewrite Hin.
Qed.

Lemma handlers_without_document_witness :
  documents unmanaged_server !! test_uri = None
  ∧ handleDefinition unmanaged_server test_uri {| line := 0; character := 6 |}
    = Normal None
  ∧ handleReferences unmanaged_server test_uri {| line := 0; character := 6 |}
    = Normal []
  ∧ handleHover unmanaged_server test_uri {| line := 0; character := 6 |}
    = Normal (Some (hover_of {| name := str "myVar"; range := mkRange 0 4 9;
                                type := TyVariable; docUri := test_uri |})).
Proof.
  destruct (handlers_without_document unmanaged_server test_uri
              {| line := 0; character := 6 |} (str "newVar") eq_refl)
    as (Hd & _ & Hr & _ & Hh).
  split_and!; [reflexivity|exact Hd|exact Hr|].
  apply (Hh _ []); reflexivity.
Defined.

(** ** Failure paths *)

(** C8 (as stated, fails): with the document present and line -1, the word
    locator raises a TypeError, and definition, references and rename let
    it through; and for the uri [constructor], which has no table entry
    but names a property that the table object inherits, hover raises on a
    fresh server, and so does definition once the manager holds a document
    of that uri. *)
Lemma handlers_raise_counterexample :
  let pos := {| line := -1; character := 0 |} in
  let pos0 := {| line := 0; character := 6 |} in
  documents sample_server !! test_uri = Some sample_doc
  ∧ getWordAtPosition sample_doc (line pos) (character pos) = Throw TypeError
  ∧ handleDefinition sample_server test_uri pos = Throw TypeError
  ∧ handleReferences sample_server test_uri pos = Throw TypeError
  ∧ handleRenameRequest sample_server test_uri pos (str "newVar")
    = Throw TypeError
  ∧ handleHover empty_server (str "constructor") pos0 = Throw TypeError
  ∧ handleDefinition unindexed_server (str "constructor") pos0 = Throw TypeError.
Proof. vm_compute. done. Qed.

(** C8 (amended): indexing and diagnostics always end normally, and the
    word locator whenever the line is not negative (the character may be
    anything).  References and rename end normally when the manager does
    not hold the uri or the line is not negative.  Hover ends normally,
    at any position, when the uri reads no inherited value from the table
    object (it has an entry, or names nothing inherited).  Definition ends
    normally when the manager does not hold the uri, or the line is not
    negative and the uri reads no inherited value. *)
Theorem handlers_end_normally (σ : Server) (u : jsstring) (pos : Position)
        (newName : jsstring) (doc : TextDocument) :
  (inherits (symbolTable σ) u = false → ∃ h, handleHover σ u pos = Normal h)
  ∧ (documents σ !! u = None
     ∨ (0 ≤ line pos ∧ inherits (symbolTable σ) u = false) →
     ∃ d, handleDefinition σ u pos = Normal d)
  ∧ (documents σ !! u = None ∨ 0 ≤ line pos →
     ∃ r, handleReferences σ u pos = Normal r)
  ∧ (documents σ !! u = None ∨ 0 ≤ line pos →
     ∃ e, handleRenameRequest σ u pos newName = Normal e)
  ∧ (0 ≤ line pos →
     ∃ w, getWordAtPosition doc (line pos) (character pos) = Normal w)
  ∧ (∃ syms, symbolTable (parseDocumentSymbols doc σ) !! uri doc = Some syms)
  ∧ (∃ ds, validateTextDocument doc σ
           = (ds, {| symbolTable := symbolTable σ; documents := documents σ;
                     sent := sent σ ++ [(uri doc, ds)] |})).
Proof.
  split_and!.
  - intros Hinh. unfold handleHover. rewrite (docSymbols_of_inherits _ _ Hinh).
    by eexists.
  - unfold handleDefinition. intros [Hdoc|[Hl Hinh]].
    + rewrite Hdoc. by eexists.
    + destruct (documents σ !! u) as [d|]; [|by eexists].
      destruct (getWordAtPosition_normal d (line pos) (character pos) Hl) as [w ->].
      simpl. destruct w as [[|c cs]|]; try by eexists.
      rewrite (docSymbols_of_inherits _ _ Hinh).
      destruct (find_symbol _ _); by eexists.
  - unfold handleReferences. intros [Hdoc|Hl].
    + rewrite Hdoc. by eexists.
    + destruct (documents σ !! u) as [d|]; [|by eexists].
      destruct (getWordAtPosition_normal d (line pos) (character pos) Hl) as [w ->].
      simpl. destruct w as [[|c cs]|]; by eexists.
  - unfold handleRenameRequest. intros [Hdoc|Hl].
    + rewrite Hdoc. by eexists.
    + destruct (documents σ !! u) as [d|]; [|by eexists].
      destruct (getWordAtPosition_normal d (line pos) (character pos) Hl) as [w ->].
      simpl. destruct w as [[|c cs]|], newName as [|n ns]; by eexists.
  - by apply getWordAtPosition_normal.
  - eexists. apply parseDocumentSymbols_lookup.
  - by eexists.
Qed.

Lemma handlers_end_normally_witness :
  (∃ d, handleDefinition sample_server test_uri {| line := 7; character := -3 |}
        = Normal d)
  ∧ (∃ h, handleHover sample_server test_uri {| line := -1; character := 0 |}
          = Normal h).
Proof.
  pose proof (handlers_end_normally sample_server test_uri
                {| line := 7; character := -3 |} (str "newVar") sample_doc)
    as (_ & Hd & _).
  pose proof (handlers_end_normally sample_server test_uri
                {| line := -1; character := 0 |} (str "newVar") sample_doc)
    as (Hh & _).
  split.
  - apply Hd. right. split; [simpl; lia|reflexivity].
  - apply Hh. reflexivity.
Defined.

(** * Further properties of the code *)

(** ** Range containment and hover *)

(** X1: [isPositionInRange] is containment for the lexicographic order on
    (line, character), both ends included, for ranges over any number of
    lines. *)
Theorem isPositionInRange_lexicographic (ln ch : Z) (r : Range) :
  isPositionInRange ln ch r = true
  ↔ pos_le (start r) {| line := ln; character := ch |}
    ∧ pos_le {| line := ln; character := ch |} (end_ r).
Proof.
  unfold isPositionInRange, pos_le. simpl.
  destruct (ln <? line (start r)) eqn:E1; simpl; [split; [done|lia]|].
  destruct (ln >? line (end_ r)) eqn:E2; simpl; [split; [done|lia]|].
  destruct (ln =? line (start r)) eqn:E3; simpl.
  - destruct (ch <? character (start r)) eqn:E4; [split; [done|lia]|].
    destruct (ln =? line (end_ r)) eqn:E5; simpl.
    + destruct (ch >? character (end_ r)) eqn:E6; [split; [done|lia]|].
      split; [lia|done].
    + split; [lia|done].
  - destruct (ln =? line (end_ r)) eqn:E5; simpl.
    + destruct (ch >? character (end_ r)) eqn:E6; [split; [done|lia]|].
      split; [lia|done].
    + split; [lia|done].
Qed.

Lemma hover_loop_none ln ch syms :
  hover_loop ln ch syms = None
  ↔ ∀ sym, sym ∈ syms → isPositionInRange ln ch (range sym) = false.
Proof.
  induction syms as [|s syms IH]; simpl.
  - split; [|done]. intros _ sym H. by apply elem_of_nil in H.
  - destruct (isPositionInRange ln ch (range s)) eqn:E.
    + split; [done|]. intros H. specialize (H s ltac:(left)). congruence.
    + rewrite IH. split.
      * intros H sym Hin. apply elem_of_cons in Hin as [->|Hin]; [done|by apply H].
      * intros H sym Hin. apply H. by right.
Qed.

Lemma hover_loop_some ln ch syms h :
  hover_loop ln ch syms = Some h →
  ∃ (j : nat) sym,
    syms !! j = Some sym ∧ isPositionInRange ln ch (range sym) = true
    ∧ h = hover_of sym
    ∧ ∀ (j' : nat) sym', (j' < j)%nat → syms !! j' = Some sym' →
                         isPositionInRange ln ch (range sym') = false.
Proof.
  induction syms as [|s syms IH]; simpl; [done|].
  destruct (isPositionInRange ln ch (range s)) eqn:E.
  - intros [= <-]. exists 0%nat, s. split_and!; [done..|]. intros j' sym' Hlt. lia.
  - intros H. destruct (IH H) as (j & sym & Hj & Hin & Hh & Hfirst).
    exists (S j), sym. split_and!; [done..|].
    intros [|j'] sym' Hlt Hl; [simpl in Hl; congruence|].
    apply (Hfirst j'); [lia|done].
Qed.

(** X2: hover raises a TypeError exactly when the uri has no table entry
    and reads a truthy value from the prototype chain of the table object;
    while that object has its first prototype, these are the uris that
    name a property of [Object.prototype].  For every other uri, hover
    answers null exactly when no symbol recorded for the uri (none at all
    when the uri has no entry) has a range containing the position, and
    any other answer is the text for the first symbol, in table order,
    whose range contains the position. *)
Theorem handleHover_null_iff (σ : Server) (u : jsstring) (pos : Position) :
  let docSymbols := default [] (symbolTable σ !! u) in
  (handleHover σ u pos = Throw TypeError ↔ inherits (symbolTable σ) u = true)
  ∧ (symbolTable σ !! str "__proto__" = None →
     (inherits (symbolTable σ) u = true
      ↔ symbolTable σ !! u = None ∧ u ∈ object_prototype_names))
  ∧ (inherits (symbolTable σ) u = false →
     (handleHover σ u pos = Normal None
      ↔ ∀ sym, sym ∈ docSymbols →
               isPositionInRange (line pos) (character pos) (range sym) = false)
     ∧ (symbolTable σ !! u = None → handleHover σ u pos = Normal None)
     ∧ (∀ h, handleHover σ u pos = Normal (Some h) →
          ∃ (j : nat) sym,
            docSymbols !! j = Some sym
            ∧ isPositionInRange (line pos) (character pos) (range sym) = true
            ∧ h = hover_of sym
            ∧ ∀ (j' : nat) sym', (j' < j)%nat → docSymbols !! j' = Some sym' →
                isPositionInRange (line pos) (character pos) (range sym') = false)).
Proof.
  intros docSymbols. split_and!.
  - rewrite <- docSymbols_of_None. unfold handleHover.
    destruct (docSymbols_of (symbolTable σ) u); by split.
  - apply inherits_plain.
  - intros Hinh. unfold handleHover. rewrite (docSymbols_of_inherits _ _ Hinh).
    fold docSymbols. split_and!.
    + rewrite <- hover_loop_none. split; [by intros [= ->]|by intros ->].
    + intros Hn. unfold docSymbols. by rewrite Hn.
    + intros h [= H]. by apply hover_loop_some.
Qed.

(** ** Order of the results *)

Lemma ordered_nil {A : Type} (R : A → A → Prop) : ordered R [].
Proof. intros i j a b _ H. done. Qed.

Lemma ordered_cons {A : Type} (R : A → A → Prop) a l :
  (∀ b, b ∈ l → R a b) → ordered R l → ordered R (a :: l).
Proof.
  intros Ha Hl [|i] [|j] x y Hlt Hx Hy; try lia; simpl in *.
  - injection Hx as <-. apply Ha. by eapply list_elem_of_lookup_2.
  - apply (Hl i j); [lia|done..].
Qed.

Lemma ordered_app {A : Type} (R : A → A → Prop) l1 l2 :
  ordered R l1 → ordered R l2 → (∀ a b, a ∈ l1 → b ∈ l2 → R a b) →
  ordered R (l1 ++ l2).
Proof.
  induction l1 as [|a l1 IH]; intros H1 H2 H12; [done|]. simpl.
  apply ordered_cons.
  - intros b Hb. apply elem_of_app in Hb as [Hb|Hb].
    + apply list_elem_of_lookup in Hb as [j Hj].
      apply (H1 0%nat (S j)); [lia|done..].
    + apply H12; [left|done].
  - apply IH; [|done|].
    + intros i j x y Hlt Hx Hy. apply (H1 (S i) (S j)); [lia|done..].
    + intros x y Hx Hy. apply H12; [by right|done].
Qed.

(** ** More on diagnostics *)

Lemma validate_loop_cons l rest i :
  validate_loop (l :: rest) i []
  = (if len l >? 80 then [too_long i l] else []) ++ validate_loop rest (i + 1) [].
Proof. simpl. rewrite validate_loop_app. by destruct (len l >? 80). Qed.

Lemma validate_loop_length lines :
  ∀ i, length (validate_loop lines i [])
       = length (filter (λ l, 80 < len l) lines).
Proof.
  induction lines as [|l rest IH]; intros i; [done|].
  rewrite validate_loop_cons, length_app, IH, filter_cons.
  destruct (decide (80 < len l)) as [H|H].
  - by replace (len l >? 80) with true by lia.
  - by replace (len l >? 80) with false by lia.
Qed.

Lemma validate_loop_increasing lines :
  ∀ i, increasing diag_line (validate_loop lines i []).
Proof.
  induction lines as [|l rest IH]; intros i; [apply ordered_nil|].
  rewrite validate_loop_cons. apply ordered_app; [|apply IH|].
  - destruct (len l >? 80); [|apply ordered_nil].
    apply ordered_cons; [|apply ordered_nil]. intros b Hb. by apply elem_of_nil in Hb.
  - intros a b Ha Hb.
    destruct (len l >? 80); [|by apply elem_of_nil in Ha].
    apply list_elem_of_singleton in Ha. subst a.
    apply validate_loop_elem in Hb as (j & l' & _ & _ & ->).
    unfold diag_line. simpl. lia.
Qed.

(** X3: there are as many diagnostics as lines longer than 80, they come in
    strictly increasing line order, and each one's range runs from column
    80 to a later column of a single line. *)
Theorem validateTextDocument_count_and_order (doc : TextDocument) (σ : Server) :
  let lines := split_lines (getText doc) in
  let diagnostics := fst (validateTextDocument doc σ) in
  length diagnostics = length (filter (λ l, 80 < len l) lines)
  ∧ increasing diag_line diagnostics
  ∧ (∀ d, d ∈ diagnostics →
       line (start (diag_range d)) = line (end_ (diag_range d))
       ∧ character (start (diag_range d)) = 80
       ∧ 80 < character (end_ (diag_range d))).
Proof.
  intros lines diagnostics. split_and!.
  - apply validate_loop_length.
  - apply validate_loop_increasing.
  - intros d Hd. apply validate_loop_elem in Hd as (j & l & _ & Hlen & ->).
    simpl. lia.
Qed.

(** X4: the diagnostics of a document are empty exactly when none of its
    lines is longer than 80; the empty document is such a one. *)
Theorem validateTextDocument_empty_iff (doc : TextDocument) (σ : Server) :
  (fst (validateTextDocument doc σ) = []
   ↔ Forall (λ l, len l ≤ 80) (split_lines (getText doc)))
  ∧ (getText doc = [] → fst (validateTextDocument doc σ) = []).
Proof.
  assert (∀ lines i, validate_loop lines i [] = []
                     ↔ Forall (λ l, len l ≤ 80) lines) as H.
  { induction lines as [|l rest IH]; intros i.
    - split; [by constructor|done].
    - rewrite validate_loop_cons, Forall_cons, <- (IH (i + 1)).
      destruct (len l >? 80) eqn:E; simpl.
      + split; [done|lia].
      + split; [intros ->; split; [lia|done]|by intros [_ ->]]. }
  split; [apply H|]. intros Ht. simpl. by rewrite Ht.
Qed.

Lemma validateTextDocument_empty_iff_witness :
  fst (validateTextDocument {| uri := test_uri; getText := [] |} empty_server) = [].
Proof.
  exact (proj2 (validateTextDocument_empty_iff
                  {| uri := test_uri; getText := [] |} empty_server) eq_refl).
Defined.

(** ** Re-indexing *)

Lemma parseDocumentSymbols_table doc σ :
  symbolTable (parseDocumentSymbols doc σ)
  = <[uri doc := scan_spec (uri doc) (split_lines (getText doc)) 0]>
      (symbolTable σ).
Proof.
  unfold parseDocumentSymbols. simpl.
  rewrite <- (insert_insert_eq (symbolTable σ) (uri doc) [] []) at 1.
  rewrite parse_loop_scan. simpl. by rewrite insert_insert_eq.
Qed.

Lemma server_eq (σ1 σ2 : Server) :
  symbolTable σ1 = symbolTable σ2 → documents σ1 = documents σ2 →
  sent σ1 = sent σ2 → σ1 = σ2.
Proof. destruct σ1, σ2. simpl. by intros -> -> ->. Qed.

(** X5: indexing a document overrides whatever an earlier indexing of the
    same uri left: only the last text counts, and indexing the same
    document twice is the same as indexing it once. *)
Theorem parseDocumentSymbols_last_wins (d1 d2 : TextDocument) (σ : Server) :
  uri d1 = uri d2 →
  parseDocumentSymbols d2 (parseDocumentSymbols d1 σ) = parseDocumentSymbols d2 σ.
Proof.
  intros Hu. apply server_eq; [|done..].
  rewrite !parseDocumentSymbols_table, Hu. apply insert_insert_eq.
Qed.

Lemma parseDocumentSymbols_last_wins_witness :
  parseDocumentSymbols one_line_doc (parseDocumentSymbols sample_doc empty_server)
  = parseDocumentSymbols one_line_doc empty_server.
Proof.
  exact (parseDocumentSymbols_last_wins sample_doc one_line_doc empty_server eq_refl).
Defined.

(** X6: indexing documents with different uris can be done in either
    order. *)
Theorem parseDocumentSymbols_commute (d1 d2 : TextDocument) (σ : Server) :
  uri d1 ≠ uri d2 →
  parseDocumentSymbols d1 (parseDocumentSymbols d2 σ)
  = parseDocumentSymbols d2 (parseDocumentSymbols d1 σ).
Proof.
  intros Hu. apply server_eq; [|done..].
  rewrite !parseDocumentSymbols_table. by apply insert_insert_ne.
Qed.

Lemma parseDocumentSymbols_commute_witness :
  parseDocumentSymbols sample_doc (parseDocumentSymbols other_doc empty_server)
  = parseDocumentSymbols other_doc (parseDocumentSymbols sample_doc empty_server).
Proof.
  apply (parseDocumentSymbols_commute sample_doc other_doc empty_server).
  vm_compute. discriminate.
Defined.

(** X7: the two steps of a change event do not depend on each other:
    validating then indexing ends in the same state as indexing then
    validating, with the same diagnostics; the event replaces the table
    entry of the document, publishes one notification and leaves the
    documents manager and the other entries alone. *)
Theorem onDidChangeContent_steps_independent (doc : TextDocument) (σ : Server) :
  let lines := split_lines (getText doc) in
  onDidChangeContent doc σ
  = snd (validateTextDocument doc (parseDocumentSymbols doc σ))
  ∧ fst (validateTextDocument doc (parseDocumentSymbols doc σ))
    = fst (validateTextDocument doc σ)
  ∧ symbolTable (onDidChangeContent doc σ)
    = <[uri doc := scan_spec (uri doc) lines 0]> (symbolTable σ)
  ∧ documents (onDidChangeContent doc σ) = documents σ
  ∧ sent (onDidChangeContent doc σ)
    = sent σ ++ [(uri doc, fst (validateTextDocument doc σ))].
Proof.
  intros lines. split_and!; try done.
  unfold onDidChangeContent. by rewrite parseDocumentSymbols_table.
Qed.

(** ** Table order *)

Lemma shape_symbol_facts u i l t sym :
  sym ∈ shape_symbol u i l t →
  sym_line sym = i ∧ type sym = t ∧ docUri sym = u.
Proof.
  intros H. apply shape_symbol_elem in H as (m & n & _ & _ & _ & _ & Ht & Hu & Hr).
  unfold sym_line. rewrite Hr. done.
Qed.

Lemma shape_symbol_ordered u i l t : ordered sym_before (shape_symbol u i l t).
Proof.
  pose proof (shape_symbol_length u i l t) as H.
  destruct (shape_symbol u i l t) as [|a [|b rest]]; simpl in H; [| |lia].
  - apply ordered_nil.
  - apply ordered_cons; [|apply ordered_nil]. intros b Hb. by apply elem_of_nil in Hb.
Qed.

Lemma scan_spec_line_range u lines :
  ∀ i sym, sym ∈ scan_spec u lines i →
           i ≤ sym_line sym < i + len lines ∧ docUri sym = u.
Proof.
  intros i sym H. apply scan_spec_elem in H as (j & l & Hl & H).
  apply lookup_lt_Some in Hl. apply shape_symbol_facts in H as (-> & _ & ->).
  unfold len. split; [lia|done].
Qed.

Lemma scan_spec_ordered u lines : ∀ i, ordered sym_before (scan_spec u lines i).
Proof.
  induction lines as [|l rest IH]; intros i; simpl; [apply ordered_nil|].
  apply ordered_app; [apply shape_symbol_ordered| |].
  - apply ordered_app; [apply shape_symbol_ordered|apply IH|].
    intros a b Ha Hb. apply shape_symbol_facts in Ha as (Ha & _ & _).
    apply scan_spec_line_range in Hb as [Hb _]. left. lia.
  - intros a b Ha Hb. apply shape_symbol_facts in Ha as (Ha & Hta & _).
    apply elem_of_app in Hb as [Hb|Hb].
    + apply shape_symbol_facts in Hb as (Hb & Htb & _). right.
      split_and!; [lia|done..].
    + apply scan_spec_line_range in Hb as [Hb _]. left. lia.
Qed.

Lemma scan_spec_length u lines :
  ∀ i, (length (scan_spec u lines i) ≤ 2 * length lines)%nat.
Proof.
  induction lines as [|l rest IH]; intros i; simpl; [lia|].
  rewrite !length_app. specialize (IH (i + 1)).
  pose proof (shape_symbol_length u i l TyVariable).
  pose proof (shape_symbol_length u i l TyFunction). lia.
Qed.

(** X8: the entry that indexing leaves is in line order, and on one line
    the variable comes before the function; it holds at most two symbols
    per line of the text, each carrying the uri of the document and the
    number of one of its lines. *)
Theorem parseDocumentSymbols_entry_order (doc : TextDocument) (σ : Server) :
  ∃ syms,
    symbolTable (parseDocumentSymbols doc σ) !! uri doc = Some syms
    ∧ ordered sym_before syms
    ∧ (length syms ≤ 2 * length (split_lines (getText doc)))%nat
    ∧ (∀ sym, sym ∈ syms →
         docUri sym = uri doc
         ∧ 0 ≤ sym_line sym < len (split_lines (getText doc))).
Proof.
  eexists. split; [apply parseDocumentSymbols_lookup|]. split_and!.
  - apply scan_spec_ordered.
  - apply scan_spec_length.
  - intros sym H. apply scan_spec_line_range in H. split; [tauto|lia].
Qed.

(** ** Cutting a text into lines *)

Lemma list_ind2 {A : Type} (P : list A → Prop) :
  P [] → (∀ a, P [a]) → (∀ a b l, P l → P (b :: l) → P (a :: b :: l)) →
  ∀ l, P l.
Proof.
  intros H0 H1 H2 l. assert (P l ∧ ∀ a, P (a :: l)) as [H _]; [|done].
  induction l as [|b l [IH1 IH2]]; [by split|].
  split; [apply IH2|]. intros a. by apply H2.
Qed.

Lemma split_go_step cur c rest :
  split_go cur (c :: rest)
  = if (c =? LF)%N then cur :: split_go [] rest
    else match rest with
         | d :: rest' =>
             if (c =? CR)%N && (d =? LF)%N then cur :: split_go [] rest'
             else split_go (cur ++ [c]) rest
         | [] => [cur ++ [c]]
         end.
Proof.
  simpl. destruct (c =? LF)%N; [done|]. destruct (c =? CR)%N; simpl.
  - destruct rest as [|d rest']; [done|]. by destruct (d =? LF)%N.
  - by destruct rest.
Qed.

Lemma split_go_length s :
  ∀ cur, length (split_go cur s) = S (count_LF s).
Proof.
  unfold count_LF.
  induction s as [|a|a b s IH1 IH2] using list_ind2; intros cur.
  - done.
  - rewrite split_go_step. rewrite filter_cons.
    destruct (a =? LF)%N eqn:E.
    + apply N.eqb_eq in E as ->. by rewrite decide_True.
    + apply N.eqb_neq in E. by rewrite decide_False.
  - rewrite split_go_step. rewrite (filter_cons _ a).
    destruct (a =? LF)%N eqn:E.
    + apply N.eqb_eq in E as ->. rewrite decide_True by done.
      cbn [length]. by rewrite IH2.
    + apply N.eqb_neq in E. rewrite decide_False by done.
      destruct ((a =? CR)%N && (b =? LF)%N) eqn:E2; [|apply IH2].
      apply andb_true_iff in E2 as [_ E2]. apply N.eqb_eq in E2 as ->.
      rewrite filter_cons, decide_True by done. cbn [length]. by rewrite IH1.
Qed.

Lemma split_go_no_LF s :
  ∀ cur, LF ∉ cur → Forall (λ l, LF ∉ l) (split_go cur s).
Proof.
  induction s as [|a|a b s IH1 IH2] using list_ind2; intros cur Hc.
  - by constructor.
  - rewrite split_go_step. destruct (a =? LF)%N eqn:E.
    + constructor; [done|]. constructor; [apply not_elem_of_nil|done].
    + apply N.eqb_neq in E. constructor; [|done].
      rewrite elem_of_app, list_elem_of_singleton. intros [?|?]; [done|congruence].
  - rewrite split_go_step. destruct (a =? LF)%N eqn:E.
    + constructor; [done|]. apply IH2, not_elem_of_nil.
    + apply N.eqb_neq in E.
      destruct ((a =? CR)%N && (b =? LF)%N).
      * constructor; [done|]. apply IH1, not_elem_of_nil.
      * apply IH2. rewrite elem_of_app, list_elem_of_singleton.
        intros [?|?]; [done|congruence].
Qed.

Lemma join_lines_cons l l' rest :
  join_lines (l :: l' :: rest) = l ++ [LF] ++ join_lines (l' :: rest).
Proof. done. Qed.

Lemma split_go_head s : ∀ cur, ∃ l rest, split_go cur s = l :: rest.
Proof.
  intros cur. pose proof (split_go_length s cur) as H.
  destruct (split_go cur s) as [|l rest]; [done|]. by eexists _, _.
Qed.

Lemma join_split_go_cur s :
  ∀ cur, join_lines (split_go cur s) = cur ++ join_lines (split_go [] s).
Proof.
  induction s as [|a|a b s IH1 IH2] using list_ind2; intros cur.
  - simpl. by rewrite app_nil_r.
  - rewrite (split_go_step cur a), (split_go_step [] a). by destruct (a =? LF)%N.
  - rewrite (split_go_step cur a), (split_go_step [] a). destruct (a =? LF)%N.
    + destruct (split_go_head (b :: s) []) as (l & rest & ->). done.
    + destruct ((a =? CR)%N && (b =? LF)%N).
      * destruct (split_go_head s []) as (l & rest & ->). done.
      * rewrite (IH2 (cur ++ [a])), (IH2 ([] ++ [a])). by rewrite <- app_assoc.
Qed.

Lemma join_split_go s : CR ∉ s → join_lines (split_go [] s) = s.
Proof.
  induction s as [|a|a b s IH1 IH2] using list_ind2; intros Hs.
  - done.
  - rewrite split_go_step. destruct (a =? LF)%N eqn:E; [|done].
    by apply N.eqb_eq in E as ->.
  - assert (a ≠ CR) as Ha by (intros ->; apply Hs; left).
    assert (CR ∉ b :: s) as Hs' by (intros H; apply Hs; by right).
    rewrite split_go_step. destruct (a =? LF)%N eqn:E.
    + apply N.eqb_eq in E as ->.
      destruct (split_go_head (b :: s) []) as (l & rest & El).
      rewrite El, join_lines_cons, <- El, IH2 by done. done.
    + replace (a =? CR)%N with false by (symmetry; by apply N.eqb_neq).
      cbn [andb]. rewrite join_split_go_cur, IH2 by done. done.
Qed.

(** X9: cutting a text into lines gives one line more than the text has
    line feeds, so never no line at all; no line contains a line feed; and
    for a text without carriage returns, the lines joined by line feeds
    are the text again. *)
Theorem split_lines_shape (text : jsstring) :
  length (split_lines text) = S (count_LF text)
  ∧ Forall (λ l, LF ∉ l) (split_lines text)
  ∧ (CR ∉ text → join_lines (split_lines text) = text).
Proof.
  split_and!.
  - apply split_go_length.
  - apply split_go_no_LF, not_elem_of_nil.
  - apply join_split_go.
Qed.

Lemma split_lines_shape_witness :
  join_lines (split_lines sample_text) = sample_text.
Proof.
  apply (split_lines_shape sample_text). vm_compute.
  intros H. repeat (apply elem_of_cons in H as [H|H]; [discriminate H|]).
  by apply elem_of_nil in H.
Defined.

(** ** The word under a position *)

Lemma js_index_Some {A : Type} (l : list A) (i : Z) x :
  js_index l i = Some x → 0 ≤ i < len l ∧ l !! Z.to_nat i = Some x.
Proof.
  unfold js_index. destruct (i <? 0) eqn:E; [done|]. intros H.
  pose proof (lookup_lt_Some _ _ _ H). unfold len. split; [lia|done].
Qed.

Lemma js_index_nat {A : Type} (l : list A) (i : Z) :
  0 ≤ i → js_index l i = l !! Z.to_nat i.
Proof. intros H. unfold js_index. by replace (i <? 0) with false by lia. Qed.

Lemma left_loop_spec l :
  ∀ fuel start, 0 ≤ start ≤ len l → start ≤ Z.of_nat fuel →
    let r := left_loop l fuel start in
    0 ≤ r ≤ start
    ∧ (∀ x, (Z.to_nat r ≤ x < Z.to_nat start)%nat →
            ∃ c, l !! x = Some c ∧ is_ident_char c = true)
    ∧ (r = 0 ∨ not_ident_at l (Z.to_nat (r - 1))).
Proof.
  induction fuel as [|f IH]; intros start Hs Hf; simpl.
  - split_and!; [lia..| |left; lia]. intros x Hx. lia.
  - destruct (start >? 0) eqn:E; simpl.
    + rewrite js_index_nat by lia.
      destruct (lookup_lt_is_Some_2 l (Z.to_nat (start - 1))) as [c Hc].
      { unfold len in Hs. lia. }
      rewrite Hc. simpl. destruct (is_ident_char c) eqn:Ec.
      * destruct (IH (start - 1)) as (Hr & Hall & Hstop); [lia..|].
        split_and!; [lia..| |done]. intros x Hx.
        destruct (decide (x = Z.to_nat (start - 1))) as [->|Hne]; [by exists c|].
        apply Hall. lia.
      * split_and!; [lia..| |right; by exists c]. intros x Hx. lia.
    + split_and!; [lia..| |left; lia]. intros x Hx. lia.
Qed.

Lemma right_loop_spec l :
  ∀ fuel e, 0 ≤ e ≤ len l → len l - e ≤ Z.of_nat fuel →
    let r := right_loop l fuel e in
    e ≤ r ≤ len l
    ∧ (∀ x, (Z.to_nat e ≤ x < Z.to_nat r)%nat →
            ∃ c, l !! x = Some c ∧ is_ident_char c = true)
    ∧ (r = len l ∨ not_ident_at l (Z.to_nat r)).
Proof.
  induction fuel as [|f IH]; intros e He Hf; simpl.
  - split_and!; [lia..| |left; lia]. intros x Hx. lia.
  - destruct (e <? len l) eqn:E; simpl.
    + rewrite js_index_nat by lia.
      destruct (lookup_lt_is_Some_2 l (Z.to_nat e)) as [c Hc].
      { unfold len in E. lia. }
      rewrite Hc. simpl. destruct (is_ident_char c) eqn:Ec.
      * destruct (IH (e + 1)) as (Hr & Hall & Hstop); [lia..|].
        split_and!; [lia..| |done]. intros x Hx.
        destruct (decide (x = Z.to_nat e)) as [->|Hne]; [by exists c|].
        apply Hall. lia.
      * split_and!; [lia..| |right; by exists c]. intros x Hx. lia.
    + split_and!; [lia..| |left; lia]. intros x Hx. lia.
Qed.

Lemma substring_slice l (a b : Z) :
  0 ≤ a ≤ b → b ≤ len l → substring l a b = slice l (Z.to_nat a) (Z.to_nat b).
Proof.
  intros Ha Hb. rewrite substring_in_bounds by done. unfold slice.
  by rewrite Z2Nat.inj_sub by lia.
Qed.

(** In range, the answer is the longest run of identifier characters
    around the column. *)
Lemma getWordAtPosition_run doc ln ch l :
  js_index (split_lines (getText doc)) ln = Some l →
  0 ≤ ch < len l →
  ∃ a b, getWordAtPosition doc ln ch = Normal (Some (slice l a b))
         ∧ maximal_run l a b ∧ (a ≤ Z.to_nat ch ≤ b)%nat.
Proof.
  intros Hl Hch. apply js_index_Some in Hl as Hln. destruct Hln as [Hln _].
  unfold getWordAtPosition. replace (ln >=? _) with false by lia. rewrite Hl.
  replace (ch >=? len l) with false by lia.
  destruct (left_loop_spec l (Z.to_nat ch) ch) as (Ha & Hall & Hstop); [lia..|].
  destruct (right_loop_spec l (Z.to_nat (len l - ch)) ch) as (Hb & Hbll & Hbtop);
    [lia..|].
  set (a := left_loop l (Z.to_nat ch) ch) in *.
  set (b := right_loop l (Z.to_nat (len l - ch)) ch) in *.
  exists (Z.to_nat a), (Z.to_nat b). split_and!.
  - by rewrite substring_slice by lia.
  - unfold maximal_run, ident_run, len in *. split_and!.
    + lia.
    + lia.
    + intros x Hx.
      destruct (decide (x < Z.to_nat ch)%nat); [apply Hall|apply Hbll]; lia.
    + destruct Hstop as [->|Hstop]; [by left|right].
      by replace (Z.to_nat a - 1)%nat with (Z.to_nat (a - 1)) by lia.
    + destruct Hbtop as [->|Hbtop]; [left; lia|by right].
  - lia.
  - lia.
Qed.

Lemma maximal_run_unique l a b a' b' x :
  maximal_run l a b → maximal_run l a' b' →
  (a ≤ x ≤ b)%nat → (a' ≤ x ≤ b')%nat → a = a' ∧ b = b'.
Proof.
  intros ((Hab & Hrun) & Ha & Hb) ((Hab' & Hrun') & Ha' & Hb') Hx Hx'.
  assert (∀ y, not_ident_at l y →
               ¬ (∃ c, l !! y = Some c ∧ is_ident_char c = true)) as Hno.
  { intros y (c & Hc & Hf) (c' & Hc' & Ht). congruence. }
  assert (a = a') as <-.
  { destruct (decide (a < a')%nat).
    - destruct Ha' as [->|Ha']; [lia|]. destruct (Hno _ Ha'). apply Hrun. lia.
    - destruct (decide (a' < a)%nat); [|lia].
      destruct Ha as [->|Ha]; [lia|]. destruct (Hno _ Ha). apply Hrun'. lia. }
  split; [done|].
  destruct (decide (b < b')%nat).
  - destruct Hb as [->|Hb]; [lia|]. destruct (Hno _ Hb). apply Hrun'. lia.
  - destruct (decide (b' < b)%nat); [|lia].
    destruct Hb' as [->|Hb']; [lia|]. destruct (Hno _ Hb'). apply Hrun. lia.
Qed.

(** X10: for a column inside an existing line, the word locator returns the
    piece of the line from [a] to [b], where [a] to [b] is the longest run
    of identifier characters that touches the column: all its characters
    are identifier characters, and it is bounded on each side by the end
    of the line or by a character that is not one. *)
Theorem getWordAtPosition_maximal_run (doc : TextDocument) (ln ch : Z)
        (l : jsstring) :
  js_index (split_lines (getText doc)) ln = Some l →
  0 ≤ ch < len l →
  ∃ a b, getWordAtPosition doc ln ch = Normal (Some (slice l a b))
         ∧ maximal_run l a b ∧ (a ≤ Z.to_nat ch ≤ b)%nat
         ∧ length (slice l a b) = (b - a)%nat
         ∧ Forall (λ c, is_ident_char c = true) (slice l a b).
Proof.
  intros Hl Hch. destruct (getWordAtPosition_run doc ln ch l Hl Hch)
    as (a & b & Hw & Hmax & Hin).
  exists a, b. split_and!; try done; try lia.
  - destruct Hmax as ((Hab & _) & _). unfold slice.
    rewrite length_take, length_drop. lia.
  - destruct Hmax as ((Hab & Hrun) & _). apply Forall_lookup. intros i c Hc.
    unfold slice in Hc. apply lookup_take_Some in Hc as [Hc Hi].
    rewrite lookup_drop in Hc. destruct (Hrun (a + i)%nat) as (c' & Hc' & Hid); [lia|].
    congruence.
Qed.

Lemma getWordAtPosition_maximal_run_witness :
  ∃ a b, getWordAtPosition one_line_doc 0 6
         = Normal (Some (slice (str "let myVar = 10;") a b))
         ∧ maximal_run (str "let myVar = 10;") a b ∧ (a ≤ 6 ≤ b)%nat
         ∧ length (slice (str "let myVar = 10;") a b) = (b - a)%nat
         ∧ Forall (λ c, is_ident_char c = true) (slice (str "let myVar = 10;") a b).
Proof.
  apply (getWordAtPosition_maximal_run one_line_doc 0 6 (str "let myVar = 10;")).
  - reflexivity.
  - split; by vm_compute.
Defined.

(** X11: every column of a word, and the column just after it when the
    line goes on, gives the same answer. *)
Theorem getWordAtPosition_same_word (doc : TextDocument) (ln ch ch' : Z)
        (l : jsstring) (a b : nat) :
  js_index (split_lines (getText doc)) ln = Some l →
  0 ≤ ch < len l →
  getWordAtPosition doc ln ch = Normal (Some (slice l a b)) →
  maximal_run l a b → (a ≤ Z.to_nat ch ≤ b)%nat →
  Z.of_nat a ≤ ch' ≤ Z.of_nat b → ch' < len l →
  getWordAtPosition doc ln ch' = getWordAtPosition doc ln ch.
Proof.
  intros Hl Hch Hw Hmax Hin Hch' Hlt.
  destruct (getWordAtPosition_run doc ln ch' l Hl) as (a' & b' & Hw' & Hmax' & Hin');
    [lia|].
  destruct (maximal_run_unique l a b a' b' (Z.to_nat ch') Hmax Hmax') as [-> ->];
    [lia|lia|]. by rewrite Hw, Hw'.
Qed.

Lemma getWordAtPosition_same_word_witness :
  getWordAtPosition one_line_doc 0 9 = getWordAtPosition one_line_doc 0 6.
Proof.
  apply (getWordAtPosition_same_word one_line_doc 0 6 9 (str "let myVar = 10;")
           4%nat 9%nat).
  - reflexivity.
  - split; by vm_compute.
  - vm_compute. reflexivity.
  - unfold maximal_run, ident_run. split_and!.
    + lia.
    + cbv. lia.
    + intros x Hx.
      assert (x = 4 ∨ x = 5 ∨ x = 6 ∨ x = 7 ∨ x = 8)%nat as Hc by lia.
      destruct Hc as [-> | [-> | [-> | [-> | ->]]]]; eexists; split; reflexivity.
    + right. eexists. split; reflexivity.
    + right. eexists. split; reflexivity.
  - lia.
  - lia.
  - vm_compute. reflexivity.
Defined.

Lemma slice_nil_iff l a b :
  (a ≤ b ≤ length l)%nat → slice l a b = [] ↔ a = b.
Proof.
  intros H. unfold slice. split.
  - intros E. apply (f_equal length) in E.
    rewrite length_take, length_drop in E. simpl in E. lia.
  - intros ->. by rewrite Nat.sub_diag.
Qed.

(** X12: on an identifier character the word locator returns a word that
    is not empty and covers the column. *)
Theorem getWordAtPosition_on_identifier (doc : TextDocument) (ln ch : Z)
        (l : jsstring) (c : N) :
  js_index (split_lines (getText doc)) ln = Some l →
  js_index l ch = Some c → is_ident_char c = true →
  ∃ a b, getWordAtPosition doc ln ch = Normal (Some (slice l a b))
         ∧ (a ≤ Z.to_nat ch < b)%nat ∧ (b ≤ length l)%nat
         ∧ slice l a b ≠ [].
Proof.
  intros Hl Hc Hid. apply js_index_Some in Hc as [Hch Hc].
  destruct (getWordAtPosition_run doc ln ch l Hl Hch)
    as (a & b & Hw & ((Hab & Hrun) & Ha & Hb) & Hin).
  assert (Z.to_nat ch < b)%nat as Hlt.
  { destruct (decide (Z.to_nat ch < b)%nat); [done|].
    assert (b = Z.to_nat ch) as -> by lia.
    destruct Hb as [Hb|(c' & Hc' & Hf)]; [unfold len in Hch; lia|congruence]. }
  exists a, b. split_and!; [done|lia|lia|lia|].
  rewrite slice_nil_iff by lia. lia.
Qed.

Lemma getWordAtPosition_on_identifier_witness :
  ∃ a b, getWordAtPosition one_line_doc 0 4
         = Normal (Some (slice (str "let myVar = 10;") a b))
         ∧ (a ≤ 4 < b)%nat ∧ (b ≤ 15)%nat
         ∧ slice (str "let myVar = 10;") a b ≠ [].
Proof.
  exact (getWordAtPosition_on_identifier one_line_doc 0 4
           (str "let myVar = 10;") 109%N eq_refl eq_refl eq_refl).
Defined.

(** X13: on a character that is not an identifier character, with none
    directly before it either, the word locator returns the empty string
    (not null); definition and rename then answer null and references the
    empty list. *)
Theorem getWordAtPosition_empty_word (σ : Server) (u : jsstring)
        (doc : TextDocument) (pos : Position) (newName l : jsstring) (c : N) :
  documents σ !! u = Some doc →
  js_index (split_lines (getText doc)) (line pos) = Some l →
  js_index l (character pos) = Some c → is_ident_char c = false →
  (character pos = 0 ∨ not_ident_at l (Z.to_nat (character pos - 1))) →
  getWordAtPosition doc (line pos) (character pos) = Normal (Some [])
  ∧ handleDefinition σ u pos = Normal None
  ∧ handleReferences σ u pos = Normal []
  ∧ handleRenameRequest σ u pos newName = Normal None.
Proof.
  intros Hdoc Hl Hc Hid Hprev. apply js_index_Some in Hc as [Hch Hc].
  destruct (getWordAtPosition_run doc _ _ l Hl Hch)
    as (a & b & Hw & ((Hab & Hrun) & Ha & Hb) & Hin).
  assert (b = Z.to_nat (character pos)) as ->.
  { destruct (decide (Z.to_nat (character pos) < b)%nat); [|lia].
    destruct (Hrun (Z.to_nat (character pos))) as (c' & Hc' & Ht); [lia|congruence]. }
  assert (a = Z.to_nat (character pos)) as ->.
  { destruct (decide (a < Z.to_nat (character pos))%nat); [|lia].
    destruct Hprev as [Hz|(c' & Hc' & Hf)]; [lia|].
    destruct (Hrun (Z.to_nat (character pos - 1))) as (c'' & Hc'' & Ht); [lia|].
    congruence. }
  assert (getWordAtPosition doc (line pos) (character pos) = Normal (Some [])) as E.
  { rewrite Hw. unfold slice. by rewrite Nat.sub_diag. }
  split_and!; [done|..].
  - unfold handleDefinition. by rewrite Hdoc, E.
  - unfold handleReferences. by rewrite Hdoc, E.
  - unfold handleRenameRequest. by rewrite Hdoc, E.
Qed.

Lemma getWordAtPosition_empty_word_witness :
  getWordAtPosition sample_doc 1 17 = Normal (Some [])
  ∧ handleDefinition sample_server test_uri {| line := 1; character := 17 |}
    = Normal None
  ∧ handleReferences sample_server test_uri {| line := 1; character := 17 |}
    = Normal []
  ∧ handleRenameRequest sample_server test_uri {| line := 1; character := 17 |}
      (str "newVar") = Normal None.
Proof.
  apply (getWordAtPosition_empty_word sample_server test_uri sample_doc
           {| line := 1; character := 17 |} (str "newVar")
           (str "function myFunc() {") 32%N).
  - reflexivity.
  - reflexivity.
  - reflexivity.
  - reflexivity.
  - right. exists 41%N. split; reflexivity.
Defined.

(** ** More on references and rename *)

Lemma take_drop_occurs (s : jsstring) (n k : nat) : occurs (take n (drop k s)) s.
Proof.
  exists (length (take k s)), (take k s), (drop n (drop k s)). split; [|done].
  by rewrite (take_drop n (drop k s)), take_drop.
Qed.

Lemma substring_occurs s a b : occurs (substring s a b) s.
Proof. unfold substring. apply take_drop_occurs. Qed.

Lemma getWordAtPosition_some doc ln ch w :
  getWordAtPosition doc ln ch = Normal (Some w) →
  ∃ l, js_index (split_lines (getText doc)) ln = Some l ∧ occurs w l.
Proof.
  unfold getWordAtPosition.
  destruct (ln >=? len (split_lines (getText doc))); [done|].
  destruct (js_index (split_lines (getText doc)) ln) as [l|]; [|done].
  destruct (ch >=? len l); [done|]. intros [= <-]. exists l. split; [done|].
  apply substring_occurs.
Qed.

Lemma references_loop_on_line u w lines (i : nat) l :
  lines !! i = Some l → occurs w l →
  ∃ loc, loc ∈ references_loop u w lines 0 [] ∧ loc_line loc = Z.of_nat i.
Proof.
  intros Hl Ho. destruct (indexOf_found l w Ho) as (n & En & _).
  pose proof (references_loop_filter u w lines 0 i l Hl) as H.
  rewrite Z.add_0_l, En in H. replace (Z.of_nat n =? -1) with false in H by lia.
  exists (reference_at u w (Z.of_nat i) (Z.of_nat n)). split; [|done].
  eapply (proj1 (list_elem_of_filter _ _ _)). rewrite H. by left.
Qed.

(** X14: when the word locator gives a word, references is never empty: it
    holds a location on the line of the request. *)
Theorem handleReferences_cursor_line (σ : Server) (u : jsstring) (pos : Position)
        (doc : TextDocument) (w : jsstring) :
  documents σ !! u = Some doc →
  getWordAtPosition doc (line pos) (character pos) = Normal (Some w) →
  w ≠ [] →
  ∃ locations loc,
    handleReferences σ u pos = Normal locations
    ∧ loc ∈ locations ∧ loc_uri loc = u ∧ loc_line loc = line pos.
Proof.
  intros Hdoc Hw Hne. destruct w as [|c cs]; [done|].
  destruct (getWordAtPosition_some _ _ _ _ Hw) as (l & Hl & Ho).
  apply js_index_Some in Hl as [Hln Hl].
  destruct (references_loop_on_line u (c :: cs) _ _ l Hl Ho) as (loc & Hin & Hline).
  exists (references_loop u (c :: cs) (split_lines (getText doc)) 0 []), loc.
  split_and!; [by apply handleReferences_word|done| |lia].
  by apply references_loop_elem in Hin as (j & l' & _ & _ & ->).
Qed.

Lemma handleReferences_cursor_line_witness :
  ∃ locations loc,
    handleReferences sample_server test_uri {| line := 2; character := 16 |}
    = Normal locations
    ∧ loc ∈ locations ∧ loc_uri loc = test_uri ∧ loc_line loc = 2.
Proof.
  exact (handleReferences_cursor_line sample_server test_uri
           {| line := 2; character := 16 |} sample_doc (str "myVar")
           eq_refl eq_refl ltac:(discriminate)).
Defined.

(** X15: with the document present and a line that is not negative, rename
    answers null exactly when the new name is empty or references, for the
    same request, is empty. *)
Theorem handleRenameRequest_null_iff (σ : Server) (u : jsstring) (pos : Position)
        (newName : jsstring) (doc : TextDocument) :
  documents σ !! u = Some doc → 0 ≤ line pos →
  handleRenameRequest σ u pos newName = Normal None
  ↔ newName = [] ∨ handleReferences σ u pos = Normal [].
Proof.
  intros Hdoc Hl.
  destruct (getWordAtPosition_normal doc (line pos) (character pos) Hl) as [w Hw].
  unfold handleRenameRequest, handleReferences. rewrite Hdoc, Hw. simpl.
  destruct w as [[|c cs]|]; [split; [by right|done] | |split; [by right|done]].
  destruct (getWordAtPosition_some _ _ _ _ Hw) as (l & Hjl & Ho).
  apply js_index_Some in Hjl as [_ Hjl].
  destruct (references_loop_on_line u (c :: cs) _ _ l Hjl Ho) as (loc & Hin & _).
  destruct newName as [|n ns]; simpl.
  - split; [by left|done].
  - split; [done|]. intros [H|[= H]]; [done|]. rewrite H in Hin.
    by apply elem_of_nil in Hin.
Qed.

Lemma handleRenameRequest_null_iff_witness :
  handleRenameRequest sample_server test_uri {| line := 0; character := 6 |} []
  = Normal None.
Proof.
  apply (handleRenameRequest_null_iff sample_server test_uri
           {| line := 0; character := 6 |} [] sample_doc eq_refl ltac:(simpl; lia)).
  by left.
Defined.

Lemma references_loop_cons u w l rest i :
  references_loop u w (l :: rest) i []
  = (if indexOf l w =? -1 then [] else [reference_at u w i (indexOf l w)])
    ++ references_loop u w rest (i + 1) [].
Proof.
  simpl. rewrite references_loop_app. by destruct (indexOf l w =? -1).
Qed.

Lemma references_loop_increasing u w lines :
  ∀ i, increasing loc_line (references_loop u w lines i []).
Proof.
  induction lines as [|l rest IH]; intros i; [apply ordered_nil|].
  rewrite references_loop_cons. apply ordered_app; [|apply IH|].
  - destruct (indexOf l w =? -1); [apply ordered_nil|].
    apply ordered_cons; [|apply ordered_nil]. intros b Hb. by apply elem_of_nil in Hb.
  - intros a b Ha Hb.
    destruct (indexOf l w =? -1); [by apply elem_of_nil in Ha|].
    apply list_elem_of_singleton in Ha. subst a.
    apply references_loop_elem in Hb as (j & l' & _ & _ & ->).
    unfold loc_line. simpl. lia.
Qed.

Lemma references_loop_length u w lines :
  ∀ i, (length (references_loop u w lines i []) ≤ length lines)%nat.
Proof.
  induction lines as [|l rest IH]; intros i; [done|].
  rewrite references_loop_cons, length_app. specialize (IH (i + 1)).
  destruct (indexOf l w =? -1); simpl; lia.
Qed.

Lemma first_occurrence_bounds w h n :
  first_occurrence w h n → (n + length w ≤ length h)%nat.
Proof.
  intros [(pre & post & -> & <-) _]. rewrite !length_app. lia.
Qed.

(** X16: an answered rename carries at least one edit; its edits are on
    strictly increasing lines, at most one per line of the text, so no two
    of them overlap; each stays on one line, inside that line, covers as
    many columns as the old word is long and inserts the new name. *)
Theorem handleRenameRequest_edits_ordered (σ : Server) (u : jsstring)
        (pos : Position) (newName : jsstring) (doc : TextDocument)
        (answer : WorkspaceEdit) :
  documents σ !! u = Some doc →
  handleRenameRequest σ u pos newName = Normal (Some answer) →
  ∃ old edits,
    getWordAtPosition doc (line pos) (character pos) = Normal (Some old)
    ∧ changes answer = {[ u := edits ]}
    ∧ edits ≠ []
    ∧ (length edits ≤ length (split_lines (getText doc)))%nat
    ∧ increasing edit_line edits
    ∧ (∀ e, e ∈ edits →
         ∃ (i : nat) l,
           split_lines (getText doc) !! i = Some l
           ∧ line (start (edit_range e)) = Z.of_nat i
           ∧ line (end_ (edit_range e)) = Z.of_nat i
           ∧ 0 ≤ character (start (edit_range e))
           ∧ character (end_ (edit_range e))
             = character (start (edit_range e)) + len old
           ∧ character (end_ (edit_range e)) ≤ len l
           ∧ newText e = newName).
Proof.
  intros Hdoc. unfold handleRenameRequest. rewrite Hdoc.
  destruct (getWordAtPosition doc (line pos) (character pos)) as [w|] eqn:Hw;
    [|done]. simpl.
  destruct w as [[|c cs]|]; [done| |done].
  destruct newName as [|n ns]; [done|]. simpl. intros [= <-].
  set (lines := split_lines (getText doc)).
  set (edits := rename_loop (c :: cs) (n :: ns) lines 0 []).
  set (refs := references_loop u (c :: cs) lines 0 []).
  assert (edit_range <$> edits = loc_range <$> refs) as Hr
    by (by apply rename_loop_ranges).
  assert (length edits = length refs) as Hlen.
  { apply (f_equal length) in Hr. by rewrite !length_fmap in Hr. }
  assert (∀ (k : nat) e, edits !! k = Some e →
            ∃ r, refs !! k = Some r ∧ loc_range r = edit_range e) as Hk.
  { intros k e He. apply (f_equal (λ x, x !! k)) in Hr.
    rewrite !list_lookup_fmap, He in Hr. simpl in Hr.
    destruct (refs !! k) as [r|]; [|done]. injection Hr as Hr. by exists r. }
  exists (c :: cs), edits. split_and!; [done|done| | | |].
  - destruct (getWordAtPosition_some _ _ _ _ Hw) as (l & Hjl & Ho).
    apply js_index_Some in Hjl as [_ Hjl].
    destruct (references_loop_on_line u (c :: cs) _ _ l Hjl Ho) as (loc & Hin & _).
    fold lines refs in Hin. intros E. rewrite E in Hlen.
    destruct refs; [by apply elem_of_nil in Hin|done].
  - rewrite Hlen. apply references_loop_length.
  - intros i j a b Hlt Ha Hb.
    destruct (Hk i a Ha) as (ra & Hra & Ea). destruct (Hk j b Hb) as (rb & Hrb & Eb).
    pose proof (references_loop_increasing u (c :: cs) lines 0 i j ra rb Hlt Hra Hrb)
      as H.
    unfold loc_line in H. unfold edit_line. by rewrite <- Ea, <- Eb.
  - intros e He. apply list_elem_of_lookup in He as [k He].
    destruct (Hk k e He) as (r & Hrk & Er).
    apply list_elem_of_lookup_2 in Hrk as Hin.
    apply references_loop_elem in Hin as (i & l & Hl & Hidx & ->).
    destruct (indexOf_from_cases l (c :: cs) 0) as [[E _]|(m & Em & F)]; [done|].
    apply first_occurrence_bounds in F. fold (indexOf l (c :: cs)) in Em.
    exists i, l. rewrite <- Er. simpl. rewrite Em. unfold len in *. simpl in *.
    split_and!; try done; try lia.
    pose proof (rename_loop_newText (c :: cs) (n :: ns) lines 0 []
                  ltac:(constructor)) as Hall.
    rewrite Forall_lookup in Hall. exact (Hall k e He).
Qed.

Lemma handleRenameRequest_edits_ordered_witness :
  ∃ old edits,
    getWordAtPosition sample_doc 0 6 = Normal (Some old)
    ∧ changes {| changes :=
        {[ test_uri := [ {| edit_range := mkRange 0 4 9; newText := str "newVar" |};
                         {| edit_range := mkRange 2 14 19; newText := str "newVar" |} ] ]} |}
      = {[ test_uri := edits ]}
    ∧ edits ≠ []
    ∧ (length edits ≤ length (split_lines sample_text))%nat
    ∧ increasing edit_line edits
    ∧ (∀ e, e ∈ edits →
         ∃ (i : nat) l,
           split_lines sample_text !! i = Some l
           ∧ line (start (edit_range e)) = Z.of_nat i
           ∧ line (end_ (edit_range e)) = Z.of_nat i
           ∧ 0 ≤ character (start (edit_range e))
           ∧ character (end_ (edit_range e))
             = character (start (edit_range e)) + len old
           ∧ character (end_ (edit_range e)) ≤ len l
           ∧ newText e = str "newVar").
Proof.
  exact (handleRenameRequest_edits_ordered sample_server test_uri
           {| line := 0; character := 6 |} (str "newVar") sample_doc _
           eq_refl rename_sample).
Defined.

(** ** Definition after indexing *)

Lemma find_symbol_some word syms sym :
  find_symbol word syms = Some sym → sym ∈ syms ∧ name sym = word.
Proof.
  induction syms as [|s syms IH]; simpl; [done|].
  destruct (decide (name s = word)) as [Hs|Hs].
  - intros [= <-]. split; [left|done].
  - intros H. destruct (IH H). split; [by right|done].
Qed.

Lemma first_occurrence_unique w h n m :
  first_occurrence w h n → first_occurrence w h m → n = m.
Proof. intros [Hn Hmin] [Hm Hmin']. apply Hmin in Hm. apply Hmin' in Hn. lia. Qed.

(** X17: once a change event has indexed a document that the manager
    holds, a definition that is answered for that document points into it:
    the location carries the document's uri, lies on one of its lines at
    the first place where the word under the cursor occurs, spells that
    word there, and is one of the locations that references returns for
    the same request. *)
Theorem handleDefinition_after_change (σ : Server) (doc : TextDocument)
        (pos : Position) (loc : Location) :
  documents σ !! uri doc = Some doc →
  let σ' := onDidChangeContent doc σ in
  handleDefinition σ' (uri doc) pos = Normal (Some loc) →
  ∃ w (i n : nat) l locations,
    getWordAtPosition doc (line pos) (character pos) = Normal (Some w)
    ∧ w ≠ []
    ∧ split_lines (getText doc) !! i = Some l
    ∧ first_occurrence w l n
    ∧ loc = {| loc_uri := uri doc;
               loc_range := mkRange (Z.of_nat i) (Z.of_nat n) (Z.of_nat n + len w) |}
    ∧ substring l (Z.of_nat n) (Z.of_nat n + len w) = w
    ∧ handleReferences σ' (uri doc) pos = Normal locations
    ∧ loc ∈ locations.
Proof.
  intros Hdoc σ'.
  assert (documents σ' !! uri doc = Some doc) as Hdoc' by done.
  assert (symbolTable σ' !! uri doc
          = Some (scan_spec (uri doc) (split_lines (getText doc)) 0)) as Ht.
  { unfold σ', onDidChangeContent. apply parseDocumentSymbols_lookup. }
  unfold handleDefinition. rewrite Hdoc', (docSymbols_of_entry _ _ _ Ht).
  destruct (getWordAtPosition doc (line pos) (character pos)) as [w|] eqn:Hw;
    [|done]. simpl.
  destruct w as [[|c cs]|]; [done| |done].
  destruct (find_symbol _ _) as [sym|] eqn:Hf; [|done]. intros [= <-].
  apply find_symbol_some in Hf as [Hin Hn].
  apply scan_spec_elem in Hin as (i & l & Hl & Hin).
  apply shape_symbol_elem in Hin as (m & n & _ & _ & _ & F & _ & Hu & Hr).
  rewrite Hn in F, Hr. rewrite Z.add_0_l in Hr.
  exists (c :: cs), i, n, l,
    (references_loop (uri doc) (c :: cs) (split_lines (getText doc)) 0 []).
  split_and!; [done|done|done|done| | | |].
  - by rewrite Hu, Hr.
  - apply substring_occurs_at. by destruct F.
  - by apply handleReferences_word.
  - rewrite Hu, Hr.
    pose proof (references_loop_filter (uri doc) (c :: cs) _ 0 i l Hl) as H.
    destruct (indexOf_found l (c :: cs)) as (n' & En & F'); [exists n; by destruct F|].
    rewrite (first_occurrence_unique _ _ _ _ F' F) in En.
    rewrite Z.add_0_l, En in H. replace (Z.of_nat n =? -1) with false in H by lia.
    eapply (proj1 (list_elem_of_filter _ _ _)). rewrite H. by left.
Qed.

Lemma handleDefinition_after_change_witness :
  ∃ w (i n : nat) l locations,
    getWordAtPosition sample_doc 2 14 = Normal (Some w)
    ∧ w ≠ []
    ∧ split_lines sample_text !! i = Some l
    ∧ first_occurrence w l n
    ∧ {| loc_uri := test_uri; loc_range := mkRange 0 4 9 |}
      = {| loc_uri := test_uri;
           loc_range := mkRange (Z.of_nat i) (Z.of_nat n) (Z.of_nat n + len w) |}
    ∧ substring l (Z.of_nat n) (Z.of_nat n + len w) = w
    ∧ handleReferences sample_server test_uri {| line := 2; character := 14 |}
      = Normal locations
    ∧ {| loc_uri := test_uri; loc_range := mkRange 0 4 9 |} ∈ locations.
Proof.
  exact (handleDefinition_after_change
           {| symbolTable := ∅; documents := {[ test_uri := sample_doc ]}; sent := [] |}
           sample_doc {| line := 2; character := 14 |}
           {| loc_uri := test_uri; loc_range := mkRange 0 4 9 |} eq_refl eq_refl).
Defined.

(** ** The matcher against what a pattern matches *)

Lemma run_length_lookup p (t : jsstring) :
  ∀ x, (x < run_length p t)%nat → ∃ d, t !! x = Some d ∧ p d = true.
Proof.
  induction t as [|c t IH]; intros x Hx; simpl in *; [lia|].
  destruct (p c) eqn:E; [|lia]. destruct x as [|x]; [by exists c|].
  apply IH. lia.
Qed.

Lemma run_length_ge p (t : jsstring) :
  ∀ m, (∀ x, (x < m)%nat → ∃ d, t !! x = Some d ∧ p d = true) →
       (m ≤ run_length p t)%nat.
Proof.
  induction t as [|c t IH]; intros m H; simpl.
  - destruct m; [lia|]. destruct (H 0%nat) as (d & Hd & _); [lia|done].
  - destruct m as [|m]; [lia|].
    destruct (H 0%nat) as (d & Hd & Hp); [lia|]. injection Hd as ->. rewrite Hp.
    apply le_n_S, IH. intros x Hx. apply (H (S x)). lia.
Qed.

Lemma greedy_complete {A : Type} (k : nat → option A) i n m :
  (m ≤ n)%nat → is_Some (k (i + m)%nat) → is_Some (greedy k i n).
Proof.
  induction n as [|n IH]; intros Hm Hk; simpl.
  - assert (m = 0%nat) as -> by lia. by destruct (k (i + 0)%nat).
  - destruct (k (i + S n)%nat) eqn:E; [done|].
    apply IH; [|done]. destruct (decide (m = S n)) as [->|]; [|lia].
    rewrite E in Hk. by destruct Hk.
Qed.

Lemma rmatch_sound {A : Type} (s : jsstring) (r : regex) :
  ∀ i cap (k : nat → capture → option A) res,
    rmatch s r i cap k = Some res →
    ∃ j cap', matches s r i cap j cap' ∧ k j cap' = Some res.
Proof.
  induction r as [c|p| |r1 IH1 r2 IH2|r1 IH1 r2 IH2|p|r IH];
    intros i cap k res; simpl.
  - destruct (s !! i) as [d|] eqn:E; [|done].
    destruct (c =? d)%N eqn:Ec; [|done]. apply N.eqb_eq in Ec as <-.
    intros H. exists (S i), cap. split; [by constructor|done].
  - destruct (s !! i) as [d|] eqn:E; [|done].
    destruct (p d) eqn:Ep; [|done].
    intros H. exists (S i), cap. split; [by econstructor|done].
  - destruct (xorb _ _) eqn:E; [|done].
    intros H. exists i, cap. split; [by constructor|done].
  - intros H. apply IH1 in H as (j1 & c1 & M1 & H).
    apply IH2 in H as (j2 & c2 & M2 & H).
    exists j2, c2. split; [by econstructor|done].
  - destruct (rmatch s r1 i cap k) eqn:E.
    + intros [= ->]. apply IH1 in E as (j & c & M & H).
      exists j, c. split; [by apply M_alt_l|done].
    + intros H. apply IH2 in H as (j & c & M & H).
      exists j, c. split; [by apply M_alt_r|done].
  - intros H. apply greedy_inv in H as (m & Hm & H).
    exists (i + m)%nat, cap. split; [|done]. constructor; [lia|].
    intros x Hx. destruct (run_length_lookup p (drop i s) (x - i)) as (d & Hd & Hp);
      [lia|]. rewrite lookup_drop in Hd.
    replace (i + (x - i))%nat with x in Hd by lia. by exists d.
  - intros H. apply IH in H as (j & c' & M & H).
    exists j, (Some (i, j)). split; [by econstructor|done].
Qed.

Lemma rmatch_complete {A : Type} (s : jsstring) r i cap j cap' :
  matches s r i cap j cap' →
  ∀ k : nat → capture → option A,
    is_Some (k j cap') → is_Some (rmatch s r i cap k).
Proof.
  induction 1 as [c i cap Hc|p d i cap Hd Hp|i cap Hb
                  |r1 r2 i j k' c0 c1 c2 _ IH1 _ IH2
                  |r1 r2 i j c c' _ IH|r1 r2 i j c c' _ IH
                  |p i j cap Hij Hall|r i j c c' _ IH];
    intros k Hk; simpl.
  - by rewrite Hc, N.eqb_refl.
  - by rewrite Hd, Hp.
  - by rewrite Hb.
  - apply IH1, IH2, Hk.
  - destruct (IH k Hk) as [x ->]. done.
  - destruct (rmatch s r1 i c k); [done|]. by apply IH.
  - apply (greedy_complete _ i _ (j - i)).
    + apply run_length_ge. intros x Hx.
      destruct (Hall (i + x)%nat) as (d & Hd & Hp); [lia|].
      exists d. by rewrite lookup_drop.
    + by replace (i + (j - i))%nat with j by lia.
  - by apply IH.
Qed.

Lemma exec_from_sound r (s : jsstring) fuel :
  ∀ i i' j c,
    exec_from r s i fuel = Some (i', j, c) →
    (i ≤ i' ≤ i + fuel)%nat ∧ matches s r i' None j c
    ∧ ∀ x j' c', (i ≤ x < i')%nat → ¬ matches s r x None j' c'.
Proof.
  induction fuel as [|f IH]; intros i i' j c; simpl.
  - destruct (rmatch _ _ _ _ _) eqn:E; [|done]. intros [= ->].
    apply rmatch_sound in E as (j' & c' & M & [= <- <- <-]).
    split_and!; [lia..|done|]. intros x ? ? Hx. lia.
  - destruct (rmatch _ _ _ _ _) eqn:E.
    + intros [= ->].
      apply rmatch_sound in E as (j' & c' & M & [= <- <- <-]).
      split_and!; [lia..|done|]. intros x ? ? Hx. lia.
    + intros H. apply IH in H as (Hi & M & Hleft).
      split_and!; [lia..|done|]. intros x j' c' Hx Mx.
      destruct (decide (x = i)) as [->|Hne]; [|apply (Hleft x j' c'); [lia|done]].
      destruct (rmatch_complete s r i None j' c' Mx
                  (λ j0 c0, Some (i, j0, c0))) as [y Hy]; [done|]. congruence.
Qed.

Lemma exec_from_complete r (s : jsstring) fuel :
  ∀ i x j c, (i ≤ x ≤ i + fuel)%nat → matches s r x None j c →
             is_Some (exec_from r s i fuel).
Proof.
  induction fuel as [|f IH]; intros i x j c Hx M; simpl.
  - assert (x = i) as -> by lia.
    destruct (rmatch_complete s r i None j c M (λ j0 c0, Some (i, j0, c0)))
      as [y ->]; done.
  - destruct (rmatch s r i None _) eqn:E; [done|].
    destruct (decide (x = i)) as [->|Hne].
    + destruct (rmatch_complete s r i None j c M (λ j0 c0, Some (i, j0, c0)))
        as [y Hy]; [done|]. congruence.
    + apply (IH (S i) x j c); [lia|done].
Qed.

(** The matcher finds a match exactly when the pattern matches somewhere
    in the string, and then reports the leftmost place where it does. *)
Lemma js_match_leftmost (r : regex) (s : jsstring) :
  (∀ m, js_match r s = Some m →
     ∃ (i j : nat) c,
       matches s r i None j c
       ∧ m_index m = Z.of_nat i
       ∧ m_whole m = slice s i j
       ∧ m_group1 m = (λ ab, slice s ab.1 ab.2) <$> c
       ∧ ∀ x j' c', (x < i)%nat → ¬ matches s r x None j' c')
  ∧ (js_match r s = None
     ↔ ∀ x j c, (x ≤ length s)%nat → ¬ matches s r x None j c).
Proof.
  unfold js_match. split.
  - intros m. destruct (exec_from r s 0 (length s)) as [[[i j] c]|] eqn:E; [|done].
    intros [= <-]. apply exec_from_sound in E as (Hi & M & Hleft).
    exists i, j, c. split_and!; [done..|]. intros x j' c' Hx. apply Hleft. lia.
  - split.
    + destruct (exec_from r s 0 (length s)) as [[[i j] c]|] eqn:E; [done|].
      intros _ x j c Hx M.
      destruct (exec_from_complete r s (length s) 0 x j c) as [y Hy]; [lia|done|].
      congruence.
    + intros H. destruct (exec_from r s 0 (length s)) as [[[i j] c]|] eqn:E; [|done].
      apply exec_from_sound in E as (Hi & M & _). destruct (H i j c); [lia|done].
Qed.

(** ** Declarations *)

Lemma occurs_at_lookup (w l : jsstring) i :
  occurs_at w l i → ∀ x d, w !! x = Some d → l !! (i + x)%nat = Some d.
Proof.
  intros (pre & post & -> & <-) x d Hd.
  rewrite lookup_app_r by lia. replace (length pre + x - length pre)%nat with x by lia.
  by apply lookup_app_l_Some.
Qed.

Lemma occurs_at_app (w1 w2 l : jsstring) i :
  occurs_at (w1 ++ w2) l i
  ↔ occurs_at w1 l i ∧ occurs_at w2 l (i + length w1).
Proof.
  split.
  - intros (pre & post & -> & <-). split.
    + exists pre, (w2 ++ post). by rewrite <- app_assoc.
    + exists (pre ++ w1), post. rewrite length_app. split; [|done].
      by rewrite <- !app_assoc.
  - intros [(pre & post & -> & <-) (pre' & post' & E & L)].
    exists pre, post'. split; [|done]. rewrite <- app_assoc. f_equal.
    rewrite <- length_app in L. rewrite app_assoc in E.
    assert (pre' = pre ++ w1) as ->.
    { apply (f_equal (take (length pre'))) in E.
      rewrite take_app_length in E. rewrite L in E at 1.
      by rewrite take_app_length in E. }
    rewrite <- !app_assoc in E. by apply app_inv_head in E.
Qed.

Lemma occurs_at_length (w l : jsstring) i :
  occurs_at w l i → (i + length w ≤ length l)%nat.
Proof. intros (pre & post & -> & <-). rewrite !length_app. lia. Qed.

Lemma slice_lookup (l : jsstring) a b x :
  (x < b - a)%nat → slice l a b !! x = l !! (a + x)%nat.
Proof.
  intros Hx. unfold slice. rewrite lookup_take_lt by done. apply lookup_drop.
Qed.

Lemma slice_length (l : jsstring) a b :
  (a ≤ b ≤ length l)%nat → length (slice l a b) = (b - a)%nat.
Proof. intros H. unfold slice. rewrite length_take, length_drop. lia. Qed.

Lemma slice_pointwise (l w : jsstring) i :
  (i + length w ≤ length l)%nat →
  (∀ x d, w !! x = Some d → l !! (i + x)%nat = Some d) →
  slice l i (i + length w) = w.
Proof.
  intros Hlen H. apply list_eq. intros x.
  destruct (decide (x < length w)%nat) as [Hx|Hx].
  - rewrite slice_lookup by lia.
    destruct (lookup_lt_is_Some_2 w x Hx) as [d Hd]. rewrite Hd. by apply H.
  - rewrite (lookup_ge_None_2 w) by lia. apply lookup_ge_None_2.
    rewrite slice_length by lia. lia.
Qed.

Lemma occurs_at_pointwise (l w : jsstring) i :
  (i + length w ≤ length l)%nat →
  (∀ x d, w !! x = Some d → l !! (i + x)%nat = Some d) →
  occurs_at w l i.
Proof.
  intros Hlen H. rewrite <- (slice_pointwise l w i Hlen H).
  apply slice_occurs; lia.
Qed.

Lemma slice_class (l : jsstring) p a b :
  (a ≤ b ≤ length l)%nat → all_in l p a b →
  Forall (λ c, p c = true) (slice l a b).
Proof.
  intros Hab H. apply Forall_lookup. intros x c Hc.
  assert (x < b - a)%nat as Hx.
  { apply lookup_lt_Some in Hc. rewrite slice_length in Hc; lia. }
  rewrite slice_lookup in Hc by done.
  destruct (H (a + x)%nat) as (d & Hd & Hp); [lia|]. congruence.
Qed.

Lemma all_in_occurs (l w : jsstring) p i :
  occurs_at w l i → Forall (λ c, p c = true) w → all_in l p i (i + length w).
Proof.
  intros Ho Hw x Hx.
  destruct (lookup_lt_is_Some_2 w (x - i)) as [d Hd]; [lia|].
  exists d. split.
  - replace x with (i + (x - i))%nat by lia. by eapply occurs_at_lookup.
  - rewrite Forall_lookup in Hw. by apply (Hw (x - i)%nat).
Qed.

Lemma regex_of_shape t :
  regex_of t = RSeq RWordB (RSeq (kw_regex t) (decl_tail t)).
Proof. by destruct t. Qed.

Lemma matches_char_iff (s : jsstring) c i cap j cap' :
  matches s (RChar c) i cap j cap' ↔ cap' = cap ∧ j = S i ∧ s !! i = Some c.
Proof.
  split.
  - inversion 1; subst. done.
  - intros (-> & -> & H). by constructor.
Qed.

Lemma matches_star_iff (s : jsstring) p i cap j cap' :
  matches s (RStar p) i cap j cap' ↔ cap' = cap ∧ (i ≤ j)%nat ∧ all_in s p i j.
Proof.
  split.
  - inversion 1; subst. done.
  - intros (-> & Hij & H). by constructor.
Qed.

Lemma matches_plus_iff (s : jsstring) p i cap j cap' :
  matches s (RPlus p) i cap j cap' ↔ cap' = cap ∧ (i < j)%nat ∧ all_in s p i j.
Proof.
  unfold RPlus. split.
  - inversion 1 as [| | |? ? ? k ? ? c1 ? M1 M2| | | |]; subst.
    inversion M1; subst. apply matches_star_iff in M2 as (-> & Hij & Hstar).
    split_and!; [done|lia|]. intros x Hx.
    destruct (decide (x = i)) as [->|]; [by eexists|]. apply Hstar. lia.
  - intros (-> & Hij & H). destruct (H i) as (d & Hd & Hp); [lia|].
    apply (M_seq s _ _ i (S i) j cap cap cap); [by econstructor|].
    apply matches_star_iff. split_and!; [done|lia|]. intros x Hx. apply H. lia.
Qed.

Lemma matches_lit_iff (s w : jsstring) :
  w ≠ [] →
  ∀ i cap j cap',
    matches s (RLit w) i cap j cap'
    ↔ cap' = cap ∧ j = (i + length w)%nat ∧ occurs_at w s i.
Proof.
  induction w as [|a w IH]; [done|]. intros _ i cap j cap'.
  destruct w as [|b w].
  - simpl. rewrite matches_char_iff. split.
    + intros (-> & -> & H). split_and!; [done|lia|].
      apply occurs_at_pointwise.
      * apply lookup_lt_Some in H. simpl. lia.
      * intros [|x] d Hd; [|done]. injection Hd as <-. by rewrite Nat.add_0_r.
    + intros (-> & -> & H). split_and!; [done|lia|].
      rewrite <- (Nat.add_0_r i). by apply (occurs_at_lookup _ _ _ H 0%nat).
  - change (RLit (a :: b :: w)) with (RSeq (RChar a) (RLit (b :: w))).
    change (a :: b :: w) with ([a] ++ (b :: w)). rewrite occurs_at_app. split.
    + inversion 1 as [| | |? ? ? k ? ? c1 ? M1 M2| | | |]; subst.
      apply matches_char_iff in M1 as (-> & -> & Ha).
      apply IH in M2 as (-> & -> & Ho); [|done].
      split_and!; [done|simpl; lia| |by rewrite Nat.add_1_r].
      apply occurs_at_pointwise.
      * apply lookup_lt_Some in Ha. simpl. lia.
      * intros [|x] d Hd; [|done]. injection Hd as <-. by rewrite Nat.add_0_r.
    + intros (-> & -> & Ha & Ho). simpl in Ho. rewrite Nat.add_1_r in Ho.
      apply (M_seq s _ _ i (S i) _ cap cap cap).
      * apply matches_char_iff. split_and!; [done..|].
        rewrite <- (Nat.add_0_r i). by apply (occurs_at_lookup _ _ _ Ha 0%nat).
      * apply IH; [done|]. split_and!; [done| |done]. simpl. lia.
Qed.

Lemma matches_alt_iff (s : jsstring) r1 r2 i cap j cap' :
  matches s (RAlt r1 r2) i cap j cap'
  ↔ matches s r1 i cap j cap' ∨ matches s r2 i cap j cap'.
Proof.
  split.
  - inversion 1; subst; [by left|by right].
  - intros [H|H]; [by apply M_alt_l|by apply M_alt_r].
Qed.

Lemma matches_kw_iff (l : jsstring) t i cap j cap' :
  matches l (kw_regex t) i cap j cap'
  ↔ cap' = cap ∧ ∃ kw, keyword_of t kw ∧ j = (i + length kw)%nat ∧ occurs_at kw l i.
Proof.
  destruct t; cbn [kw_regex keyword_of].
  - rewrite matches_alt_iff, !matches_lit_iff by done. split.
    + intros [(-> & -> & Ho)|(-> & -> & Ho)]; (split; [done|]).
      * exists (str "let"). split_and!; [by left|done..].
      * exists (str "const"). split_and!; [by right|done..].
    + intros (-> & kw & [-> | ->] & -> & Ho); [by left|by right].
  - rewrite matches_lit_iff by done. split.
    + intros (-> & -> & Ho). split; [done|]. by eexists.
    + intros (-> & kw & -> & -> & Ho). done.
Qed.

Lemma matches_decl_tail_iff (l : jsstring) t j1 cap j cap' :
  matches l (decl_tail t) j1 cap j cap'
  ↔ ∃ j2 j3 j4,
      (j1 < j2 < j3)%nat ∧ (j3 ≤ j4)%nat ∧ j = S j4 ∧ cap' = Some (j2, j3)
      ∧ all_in l is_space j1 j2 ∧ all_in l is_ident_char j2 j3
      ∧ all_in l is_space j3 j4 ∧ l !! j4 = Some (closer t).
Proof.
  unfold decl_tail. split.
  - inversion 1 as [| | |? ? ? j2 ? ? c1 ? M1 M2| | | |]; subst.
    apply matches_plus_iff in M1 as (-> & H12 & S1).
    inversion M2 as [| | |? ? ? j3 ? ? c2 ? M3 M4| | | |]; subst.
    inversion M3 as [| | | | | | |? ? ? ? c3 M5]; subst.
    apply matches_plus_iff in M5 as (-> & H23 & S2).
    inversion M4 as [| | |? ? ? j4 ? ? c4 ? M6 M7| | | |]; subst.
    apply matches_star_iff in M6 as (-> & H34 & S3).
    apply matches_char_iff in M7 as (-> & -> & Hc).
    exists j2, j3, j4. split_and!; try done; lia.
  - intros (j2 & j3 & j4 & H123 & H34 & -> & -> & S1 & S2 & S3 & Hc).
    apply (M_seq l _ _ j1 j2 _ cap cap); [apply matches_plus_iff; split_and!; [done|lia|done]|].
    apply (M_seq l _ _ j2 j3 _ cap (Some (j2, j3))).
    { apply (M_group l _ j2 j3 cap cap). apply matches_plus_iff. split_and!; [done|lia|done]. }
    apply (M_seq l _ _ j3 j4 _ _ (Some (j2, j3))); [by apply matches_star_iff|].
    by apply matches_char_iff.
Qed.

Lemma keyword_first t kw :
  keyword_of t kw → ∃ c, kw !! 0%nat = Some c ∧ is_word_char c = true.
Proof.
  destruct t; simpl.
  - intros [-> | ->]; eexists; split; reflexivity.
  - intros ->. eexists; split; reflexivity.
Qed.

Lemma word_at_keyword (l : jsstring) t kw i :
  keyword_of t kw → occurs_at kw l i → word_at l i = true.
Proof.
  intros Hk Ho. destruct (keyword_first t kw Hk) as (c & Hc & Hw).
  pose proof (occurs_at_lookup _ _ _ Ho 0%nat c Hc) as H.
  rewrite Nat.add_0_r in H. unfold word_at. by rewrite H.
Qed.

(** The patterns match at an offset exactly when a declaration stands
    there, and the capture is the declared name. *)
Lemma matches_declares (l : jsstring) t i j c :
  matches l (regex_of t) i None j c →
  ∃ a b, c = Some (a, b) ∧ declares t l i (slice l a b).
Proof.
  rewrite regex_of_shape.
  inversion 1 as [| | |? ? ? i0 ? ? c0 ? M1 M2| | | |]; subst.
  inversion M1 as [| |? ? Hb| | | | |]; subst.
  inversion M2 as [| | |? ? ? j1 ? ? c1 ? M3 M4| | | |]; subst.
  apply matches_kw_iff in M3 as (-> & kw & Hk & -> & Hkw).
  apply matches_decl_tail_iff in M4
    as (j2 & j3 & j4 & H123 & H34 & -> & -> & S1 & S2 & S3 & Hc).
  apply lookup_lt_Some in Hc as Hlen.
  exists j2, j3. split; [done|].
  exists kw, (slice l (i0 + length kw) j2), (slice l j3 j4).
  split_and!.
  - done.
  - rewrite slice_nil_iff by lia. lia.
  - apply slice_class; [lia|done].
  - rewrite slice_nil_iff by lia. lia.
  - apply slice_class; [lia|done].
  - apply slice_class; [lia|done].
  - apply occurs_at_app. split; [done|].
    apply occurs_at_app. split; [apply slice_occurs; lia|].
    rewrite slice_length by lia.
    replace (i0 + length kw + (j2 - (i0 + length kw)))%nat with j2 by lia.
    apply occurs_at_app. split; [apply slice_occurs; lia|].
    rewrite slice_length by lia. replace (j2 + (j3 - j2))%nat with j3 by lia.
    apply occurs_at_app. split; [apply slice_occurs; lia|].
    rewrite slice_length by lia. replace (j3 + (j4 - j3))%nat with j4 by lia.
    apply occurs_at_pointwise; [simpl; lia|].
    intros [|x] d Hd; [|done]. injection Hd as <-. by rewrite Nat.add_0_r.
  - rewrite (word_at_keyword l t kw i0 Hk Hkw) in Hb.
    by destruct (word_before l i0).
Qed.

Lemma occurs_at_slice (w l : jsstring) i :
  occurs_at w l i → slice l i (i + length w) = w.
Proof.
  intros Ho. apply slice_pointwise; [by apply occurs_at_length|].
  by apply occurs_at_lookup.
Qed.

Lemma declares_matches (l : jsstring) t i name :
  declares t l i name →
  ∃ j a b, matches l (regex_of t) i None j (Some (a, b)) ∧ slice l a b = name
           ∧ (i ≤ length l)%nat.
Proof.
  intros (kw & ws & ws' & Hk & Hws & Sws & Hn & Sn & Sws' & Ho & Hb).
  apply occurs_at_length in Ho as Hlen.
  apply occurs_at_app in Ho as [Hkw Ho].
  apply occurs_at_app in Ho as [Ows Ho].
  apply occurs_at_app in Ho as [On Ho].
  apply occurs_at_app in Ho as [Ows' Oc].
  set (j1 := (i + length kw)%nat) in *.
  set (j2 := (j1 + length ws)%nat) in *.
  set (j3 := (j2 + length name)%nat) in *.
  set (j4 := (j3 + length ws')%nat) in *.
  exists (S j4), j2, j3. split_and!.
  - rewrite regex_of_shape.
    apply (M_seq l _ _ i i _ None None).
    { constructor. rewrite Hb, (word_at_keyword l t kw i Hk Hkw). done. }
    apply (M_seq l _ _ i j1 _ None None).
    { apply matches_kw_iff. split; [done|]. by exists kw. }
    apply matches_decl_tail_iff. exists j2, j3, j4.
    assert (0 < length ws)%nat by (destruct ws; [done|simpl; lia]).
    assert (0 < length name)%nat by (destruct name; [done|simpl; lia]).
    split_and!; try done; try (unfold j2, j3, j4; lia).
    + by apply all_in_occurs.
    + by apply all_in_occurs.
    + by apply all_in_occurs.
    + pose proof (occurs_at_lookup _ _ _ Oc 0%nat (closer t) eq_refl) as H'.
      by rewrite Nat.add_0_r in H'.
  - by apply occurs_at_slice.
  - lia.
Qed.

Lemma ident_not_space c : is_ident_char c = true → is_space c = false.
Proof.
  unfold is_ident_char, is_space, in_range. intros H.
  repeat match goal with
         | |- context [(?a <=? ?b)%N] => destruct (N.leb_spec a b)
         | |- context [(?a =? ?b)%N] => destruct (N.eqb_spec a b)
         end; simpl; try done; subst; try lia; simpl in H;
    repeat match type of H with
           | context [(?a <=? ?b)%N] => destruct (N.leb_spec a b)
           | context [(?a =? ?b)%N] => destruct (N.eqb_spec a b)
           end; simpl in H; try done; lia.
Qed.

Lemma span_unique (p : N → bool) (A A' R R' : jsstring) x x' :
  Forall (λ c, p c = true) A → Forall (λ c, p c = true) A' →
  p x = false → p x' = false →
  A ++ x :: R = A' ++ x' :: R' → A = A' ∧ x :: R = x' :: R'.
Proof.
  revert A'. induction A as [|a A IH]; intros A' HA HA' Hx Hx' E.
  - destruct A' as [|a' A']; [done|]. simpl in E. injection E as -> _.
    apply Forall_cons in HA' as [Ha' _]. congruence.
  - destruct A' as [|a' A']; simpl in E.
    + injection E as -> _. apply Forall_cons in HA as [Ha _]. congruence.
    + injection E as -> E. apply Forall_cons in HA as [_ HA].
      apply Forall_cons in HA' as [_ HA'].
      destruct (IH A' HA HA' Hx Hx' E) as [-> ->]. done.
Qed.

Lemma occurs_at_drop (w l : jsstring) i :
  occurs_at w l i → ∃ post, drop i l = w ++ post.
Proof. intros (pre & post & -> & <-). exists post. by rewrite drop_app_length. Qed.

Lemma closer_not_ident t : is_ident_char (closer t) = false.
Proof. by destruct t. Qed.

Lemma closer_not_space t : is_space (closer t) = false.
Proof. by destruct t. Qed.

(** At one offset a line declares at most one name of a shape. *)
Lemma declares_functional t (l : jsstring) i n1 n2 :
  declares t l i n1 → declares t l i n2 → n1 = n2.
Proof.
  intros (kw1 & ws1 & ws1' & Hk1 & Hws1 & S1 & Hn1 & I1 & S1' & O1 & _)
         (kw2 & ws2 & ws2' & Hk2 & Hws2 & S2 & Hn2 & I2 & S2' & O2 & _).
  apply occurs_at_drop in O1 as [post1 E1]. apply occurs_at_drop in O2 as [post2 E2].
  rewrite E1 in E2. clear E1.
  assert (kw1 = kw2) as <-.
  { destruct t; [|congruence].
    destruct Hk1 as [-> | ->], Hk2 as [-> | ->]; try done; discriminate E2. }
  rewrite <- !app_assoc in E2. apply app_inv_head in E2.
  destruct n1 as [|a1 n1]; [done|]. destruct n2 as [|a2 n2]; [done|].
  apply Forall_cons in I1 as [Ia1 I1]. apply Forall_cons in I2 as [Ia2 I2].
  simpl in E2.
  apply (span_unique is_space) in E2 as [_ E2];
    [|done|done|by apply ident_not_space|by apply ident_not_space].
  injection E2 as <- E2. f_equal.
  assert (∀ (ws' post : jsstring),
            Forall (λ c, is_space c = true) ws' →
            ∃ x R, ws' ++ closer t :: post = x :: R ∧ is_ident_char x = false)
    as Hnext.
  { intros [|b ws'] post Hs; simpl.
    - eexists _, _. split; [done|]. apply closer_not_ident.
    - eexists _, _. split; [done|]. apply Forall_cons in Hs as [Hb _].
      destruct (is_ident_char b) eqn:Eb; [|done].
      apply ident_not_space in Eb. congruence. }
  destruct (Hnext ws1' post1 S1') as (x1 & R1 & Eq1 & Hx1).
  destruct (Hnext ws2' post2 S2') as (x2 & R2 & Eq2 & Hx2).
  rewrite Eq1, Eq2 in E2.
  by apply (span_unique is_ident_char) in E2 as [-> _].
Qed.

Lemma shape_symbol_declares u i l t sym :
  sym ∈ shape_symbol u i l t →
  ∃ p, declares t l p (name sym)
       ∧ ∀ p' name', declares t l p' name' →
                     (p ≤ p')%nat ∧ (p' = p → name' = name sym).
Proof.
  intros H. apply shape_symbol_elem in H as (m & n & Hm & Hg & _).
  destruct (js_match_leftmost (regex_of t) l) as [Hsound _].
  destruct (Hsound m Hm) as (p & j & c & M & _ & _ & Hc & Hleft).
  apply matches_declares in M as (a & b & -> & D).
  rewrite Hg in Hc. simpl in Hc. injection Hc as Hc. rewrite <- Hc in D.
  exists p. split; [done|]. intros p' name' D'. split.
  - destruct (decide (p ≤ p')%nat); [done|].
    apply declares_matches in D' as (j' & a' & b' & M' & _).
    destruct (Hleft p' j' _ ltac:(lia) M').
  - intros ->. by eapply declares_functional.
Qed.

Lemma shape_symbol_complete u i l t p name :
  declares t l p name → ∃ sym, sym ∈ shape_symbol u i l t.
Proof.
  intros D. apply declares_matches in D as (j & a & b & M & _ & Hp).
  destruct (js_match_leftmost (regex_of t) l) as [Hsound Hnone].
  unfold shape_symbol.
  destruct (js_match (regex_of t) l) as [m|] eqn:Hm.
  - destruct (Hsound m eq_refl) as (p0 & j0 & c0 & M0 & _ & _ & Hc & _).
    apply matches_declares in M0 as (a0 & b0 & -> & D0).
    destruct D0 as (_ & _ & _ & _ & _ & _ & Hn & _).
    destruct m as [ix wh g]. simpl in Hc. subst g. simpl in *.
    destruct (slice l a0 b0) as [|c cs]; [done|]. eexists. by left.
  - destruct (proj1 Hnone eq_refl p j _ Hp M).
Qed.

Lemma scan_spec_intro u lines :
  ∀ i (j : nat) l t sym,
    lines !! j = Some l → sym ∈ shape_symbol u (i + Z.of_nat j) l t →
    sym ∈ scan_spec u lines i.
Proof.
  induction lines as [|l0 rest IH]; intros i j l t sym Hl Hs; [done|].
  simpl. destruct j as [|j]; simpl in Hl.
  - injection Hl as ->. rewrite Z.add_0_r in Hs.
    rewrite !elem_of_app. destruct t; [by left|right; by left].
  - rewrite !elem_of_app. right. right. apply (IH (i + 1) j l t); [done|].
    by replace (i + 1 + Z.of_nat j) with (i + Z.of_nat (S j)) by lia.
Qed.

(** X18: every symbol that indexing records is the name of the leftmost
    declaration of its shape on its line: the keyword at a word boundary,
    white space, the name (identifier characters only, at least one),
    optional white space and [=] for a variable or an opening parenthesis
    for a function; no declaration of that shape starts earlier on the
    line, and the one starting there declares this name and no other. *)
Theorem parseDocumentSymbols_leftmost_declaration (doc : TextDocument)
        (σ : Server) :
  ∃ syms,
    symbolTable (parseDocumentSymbols doc σ) !! uri doc = Some syms
    ∧ ∀ sym, sym ∈ syms →
        ∃ (i p : nat) l,
          split_lines (getText doc) !! i = Some l
          ∧ sym_line sym = Z.of_nat i
          ∧ declares (type sym) l p (name sym)
          ∧ name sym ≠ []
          ∧ Forall (λ c, is_ident_char c = true) (name sym)
          ∧ ∀ p' name', declares (type sym) l p' name' →
                        (p ≤ p')%nat ∧ (p' = p → name' = name sym).
Proof.
  eexists. split; [apply parseDocumentSymbols_lookup|].
  intros sym Hs. apply scan_spec_elem in Hs as (i & l & Hl & Hs).
  pose proof (shape_symbol_facts _ _ _ _ _ Hs) as (Hline & _ & _).
  destruct (shape_symbol_declares _ _ _ _ _ Hs) as (p & D & Hleft).
  exists i, p, l. split_and!; [done|lia|done| | |done].
  - by destruct D as (_ & _ & _ & _ & _ & _ & Hn & _).
  - by destruct D as (_ & _ & _ & _ & _ & _ & _ & Hi & _).
Qed.

(** X19: indexing records a symbol of a shape on a line exactly when the
    line holds a declaration of that shape; lines without one contribute
    nothing. *)
Theorem parseDocumentSymbols_symbol_iff_declaration (doc : TextDocument)
        (σ : Server) :
  ∃ syms,
    symbolTable (parseDocumentSymbols doc σ) !! uri doc = Some syms
    ∧ ∀ (t : SymbolType) (i : nat),
        (∃ sym, sym ∈ syms ∧ type sym = t ∧ sym_line sym = Z.of_nat i)
        ↔ (∃ l p name, split_lines (getText doc) !! i = Some l
                       ∧ declares t l p name).
Proof.
  eexists. split; [apply parseDocumentSymbols_lookup|].
  intros t i. split.
  - intros (sym & Hs & Ht & Hline).
    apply scan_spec_elem in Hs as (j & l & Hl & Hs).
    pose proof (shape_symbol_facts _ _ _ _ _ Hs) as (Hj & _ & _).
    assert (j = i) as -> by lia.
    destruct (shape_symbol_declares _ _ _ _ _ Hs) as (p & D & _).
    exists l, p, (name sym). by rewrite <- Ht.
  - intros (l & p & name & Hl & D).
    destruct (shape_symbol_complete (uri doc) (0 + Z.of_nat i) l t p name D)
      as [sym Hs].
    pose proof (shape_symbol_facts _ _ _ _ _ Hs) as (Hline & Ht & _).
    exists sym. split_and!; [|done|lia]. by eapply scan_spec_intro.
Qed.

(** ** Hover after indexing *)

Lemma isPositionInRange_mkRange ln ch l s e :
  isPositionInRange ln ch (mkRange l s e) = true ↔ ln = l ∧ s ≤ ch ≤ e.
Proof.
  unfold isPositionInRange. simpl.
  destruct (ln <? l) eqn:E1; simpl; [split; [done|lia]|].
  destruct (ln >? l) eqn:E2; simpl; [split; [done|lia]|].
  replace (ln =? l) with true by lia. simpl.
  destruct (ch <? s) eqn:E3; [split; [done|lia]|].
  destruct (ch >? e) eqn:E4; [split; [done|lia]|]. split; [lia|done].
Qed.

(** X20: after indexing, hover answers for that document only on a line
    that holds a declaration and only from the first occurrence of the
    declared name on that line up to the column just after it; the
    answer names a recorded symbol. *)
Theorem handleHover_after_indexing (doc : TextDocument) (σ : Server)
        (pos : Position) (h : Hover) :
  handleHover (parseDocumentSymbols doc σ) (uri doc) pos = Normal (Some h) →
  ∃ sym (i n p : nat) l,
    h = hover_of sym
    ∧ split_lines (getText doc) !! i = Some l
    ∧ line pos = Z.of_nat i
    ∧ declares (type sym) l p (name sym)
    ∧ first_occurrence (name sym) l n
    ∧ Z.of_nat n ≤ character pos ≤ Z.of_nat n + len (name sym).
Proof.
  unfold handleHover.
  rewrite (docSymbols_of_entry _ _ _ (parseDocumentSymbols_lookup doc σ)).
  intros [= H]. apply hover_loop_some in H as (j & sym & Hj & Hin & -> & _).
  apply list_elem_of_lookup_2 in Hj.
  apply scan_spec_elem in Hj as (i & l & Hl & Hs).
  destruct (shape_symbol_declares _ _ _ _ _ Hs) as (p & D & _).
  apply shape_symbol_elem in Hs as (m & n & _ & _ & _ & F & _ & _ & Hr).
  rewrite Hr in Hin. apply isPositionInRange_mkRange in Hin as [Hline Hch].
  exists sym, i, n, p, l. split_and!; try done; lia.
Qed.

Lemma handleHover_after_indexing_witness :
  ∃ sym (i n p : nat) l,
    {| contents_kind := str "markdown";
       contents_value :=
         str "**Symbol**: `myVar`" ++ [LF] ++ str "**Type**: `variable`" |}
    = hover_of sym
    ∧ split_lines sample_text !! i = Some l
    ∧ 0 = Z.of_nat i
    ∧ declares (type sym) l p (name sym)
    ∧ first_occurrence (name sym) l n
    ∧ Z.of_nat n ≤ 6 ≤ Z.of_nat n + len (name sym).
Proof.
  exact (handleHover_after_indexing sample_doc empty_server
           {| line := 0; character := 6 |} _ eq_refl).
Defined.

(** ** Requests anywhere in a word *)

(** X21: for a document that the manager holds, definition, references and
    rename give the same answer for every column of the word under the
    cursor, and for the column just after it when the line goes on. *)
Theorem handlers_same_across_word (σ : Server) (u : jsstring)
        (doc : TextDocument) (ln ch ch' : Z) (newName l : jsstring) (a b : nat) :
  documents σ !! u = Some doc →
  js_index (split_lines (getText doc)) ln = Some l →
  0 ≤ ch < len l →
  getWordAtPosition doc ln ch = Normal (Some (slice l a b)) →
  maximal_run l a b → (a ≤ Z.to_nat ch ≤ b)%nat →
  Z.of_nat a ≤ ch' ≤ Z.of_nat b → ch' < len l →
  let pos := {| line := ln; character := ch |} in
  let pos' := {| line := ln; character := ch' |} in
  handleDefinition σ u pos' = handleDefinition σ u pos
  ∧ handleReferences σ u pos' = handleReferences σ u pos
  ∧ handleRenameRequest σ u pos' newName = handleRenameRequest σ u pos newName.
Proof.
  intros Hdoc Hl Hch Hw Hmax Hin Hch' Hlt pos pos'.
  assert (getWordAtPosition doc ln ch' = getWordAtPosition doc ln ch) as E.
  { destruct (getWordAtPosition_run doc ln ch' l Hl)
      as (a' & b' & Hw' & Hmax' & Hin'); [lia|].
    destruct (maximal_run_unique l a b a' b' (Z.to_nat ch') Hmax Hmax') as [-> ->];
      [lia|lia|]. by rewrite Hw, Hw'. }
  unfold handleDefinition, handleReferences, handleRenameRequest, pos, pos'.
  cbn [line character]. by rewrite Hdoc, E.
Qed.

Lemma handlers_same_across_word_witness :
  handleDefinition sample_server test_uri {| line := 2; character := 19 |}
  = handleDefinition sample_server test_uri {| line := 2; character := 14 |}
  ∧ handleReferences sample_server test_uri {| line := 2; character := 19 |}
    = handleReferences sample_server test_uri {| line := 2; character := 14 |}
  ∧ handleRenameRequest sample_server test_uri {| line := 2; character := 19 |}
      (str "newVar")
    = handleRenameRequest sample_server test_uri {| line := 2; character := 14 |}
        (str "newVar").
Proof.
  apply (handlers_same_across_word sample_server test_uri sample_doc 2 14 19
           (str "newVar") (str "  console.log(myVar);") 14%nat 19%nat).
  - reflexivity.
  - reflexivity.
  - split; by vm_compute.
  - vm_compute. reflexivity.
  - unfold maximal_run, ident_run. split_and!.
    + lia.
    + cbv. lia.
    + intros x Hx.
      assert (x = 14 ∨ x = 15 ∨ x = 16 ∨ x = 17 ∨ x = 18)%nat as Hc by lia.
      destruct Hc as [-> | [-> | [-> | [-> | ->]]]]; eexists; split; reflexivity.
    + right. eexists. split; reflexivity.
    + right. eexists. split; reflexivity.
  - lia.
  - lia.
  - vm_compute. reflexivity.
Defined.

(** ** Positions before the text *)

(** X22: for a document that the manager holds, the word locator,
    references and rename raise a TypeError exactly when the line is
    negative; so does definition when the uri reads no inherited value
    from the table object, and a negative line makes it raise in any case.
    Hover raises exactly when the uri has no table entry and reads an
    inherited value, whatever the position. *)
Theorem handlers_raise_iff_negative_line (σ : Server) (u : jsstring)
        (doc : TextDocument) (pos : Position) (newName : jsstring) :
  documents σ !! u = Some doc →
  (getWordAtPosition doc (line pos) (character pos) = Throw TypeError
   ↔ line pos < 0)
  ∧ (handleReferences σ u pos = Throw TypeError ↔ line pos < 0)
  ∧ (handleRenameRequest σ u pos newName = Throw TypeError ↔ line pos < 0)
  ∧ (line pos < 0 → handleDefinition σ u pos = Throw TypeError)
  ∧ (inherits (symbolTable σ) u = false →
     (handleDefinition σ u pos = Throw TypeError ↔ line pos < 0))
  ∧ (handleHover σ u pos = Throw TypeError
     ↔ inherits (symbolTable σ) u = true).
Proof.
  intros Hdoc.
  assert (handleHover σ u pos = Throw TypeError
          ↔ inherits (symbolTable σ) u = true) as Hhover.
  { rewrite <- docSymbols_of_None. unfold handleHover.
    destruct (docSymbols_of (symbolTable σ) u); by split. }
  unfold handleDefinition, handleReferences, handleRenameRequest. rewrite Hdoc.
  destruct (decide (line pos < 0)) as [Hneg|Hpos].
  - rewrite (getWordAtPosition_negative_line doc _ _ Hneg). simpl.
    split_and!; done.
  - destruct (getWordAtPosition_normal doc (line pos) (character pos)) as [w ->];
      [lia|]. simpl.
    split_and!; try done; try lia.
    + split; [|lia]. by destruct w as [[|c cs]|].
    + split; [|lia]. by destruct w as [[|c cs]|], newName.
    + intros Hinh. split; [|lia]. destruct w as [[|c cs]|]; try done.
      rewrite (docSymbols_of_inherits _ _ Hinh). by destruct (find_symbol _ _).
Qed.

Lemma handlers_raise_iff_negative_line_witness :
  handleDefinition sample_server test_uri {| line := -2; character := 3 |}
  = Throw TypeError.
Proof.
  destruct (handlers_raise_iff_negative_line sample_server test_uri sample_doc
              {| line := -2; character := 3 |} (str "newVar") eq_refl)
    as (_ & _ & _ & H & _).
  apply H. simpl. lia.
Defined.

Lemma right_loop_negative l :
  ∀ (k : nat) fuel e, e = - Z.of_nat k →
    right_loop l (k + fuel) e = right_loop l fuel 0.
Proof.
  induction k as [|k IH]; intros fuel e He.
  - simpl. by replace e with 0 by lia.
  - change (S k + fuel)%nat with (S (k + fuel)). cbn [right_loop].
    assert (e < 0) as Hneg by lia.
    unfold js_index at 1. replace (e <? 0) with true by lia.
    assert (e < len l) as Hlt by (unfold len; lia).
    replace (e <? len l) with true by lia. simpl.
    apply IH. lia.
Qed.

(** X23: a negative character on an existing line is not refused: the
    word locator answers with the run of identifier characters that
    starts the line, the empty string if the line starts with none. *)
Theorem getWordAtPosition_negative_character (doc : TextDocument) (ln ch : Z)
        (l : jsstring) :
  js_index (split_lines (getText doc)) ln = Some l →
  ch < 0 →
  ∃ b, getWordAtPosition doc ln ch = Normal (Some (slice l 0 b))
       ∧ ident_run l 0 b
       ∧ (b = length l ∨ not_ident_at l b).
Proof.
  intros Hl Hch. apply js_index_Some in Hl as Hln. destruct Hln as [Hln _].
  assert (0 ≤ len l) as Hlen0 by (unfold len; lia).
  assert (len l = Z.of_nat (length l)) as Hlen by done.
  unfold getWordAtPosition. replace (ln >=? _) with false by lia. rewrite Hl.
  replace (ch >=? len l) with false by lia.
  replace (Z.to_nat ch) with 0%nat by lia. cbn [left_loop].
  replace (Z.to_nat (len l - ch)) with (Z.to_nat (- ch) + length l)%nat by lia.
  rewrite (right_loop_negative l (Z.to_nat (- ch)) (length l) ch) by lia.
  destruct (right_loop_spec l (length l) 0) as (Hb & Hall & Hstop); [lia..|].
  set (b := right_loop l (length l) 0) in *.
  exists (Z.to_nat b). split_and!.
  - unfold substring, clamp, slice.
    replace (Z.max 0 (Z.min ch (len l))) with 0 by lia.
    replace (Z.max 0 (Z.min b (len l))) with b by lia.
    rewrite Z.min_l, Z.max_r by lia. by rewrite Z.sub_0_r, Nat.sub_0_r.
  - split; [lia|]. intros x Hx. apply Hall. lia.
  - destruct Hstop as [->|Hstop]; [left; lia|by right].
Qed.

Lemma getWordAtPosition_negative_character_witness :
  ∃ b, getWordAtPosition one_line_doc 0 (-5)
       = Normal (Some (slice (str "let myVar = 10;") 0 b))
       ∧ ident_run (str "let myVar = 10;") 0 b
       ∧ (b = length (str "let myVar = 10;")
          ∨ not_ident_at (str "let myVar = 10;") b).
Proof.
  apply (getWordAtPosition_negative_character one_line_doc 0 (-5)
           (str "let myVar = 10;")).
  - reflexivity.
  - lia.
Defined.

(** ** Order of references *)

(** X24: the locations that references returns come in strictly increasing
    line order, so at most one per line of the text; each carries the uri
    of the request, stays on one line and inside it, and spans exactly the
    length of the word. *)
Theorem handleReferences_ordered (σ : Server) (u : jsstring) (pos : Position)
        (doc : TextDocument) (locations : list Location) :
  documents σ !! u = Some doc →
  handleReferences σ u pos = Normal locations →
  increasing loc_line locations
  ∧ (length locations ≤ length (split_lines (getText doc)))%nat
  ∧ (∀ loc, loc ∈ locations →
       ∃ w (i : nat) l,
         getWordAtPosition doc (line pos) (character pos) = Normal (Some w)
         ∧ split_lines (getText doc) !! i = Some l
         ∧ loc_uri loc = u
         ∧ line (start (loc_range loc)) = Z.of_nat i
         ∧ line (end_ (loc_range loc)) = Z.of_nat i
         ∧ 0 ≤ character (start (loc_range loc))
         ∧ character (end_ (loc_range loc))
           = character (start (loc_range loc)) + len w
         ∧ character (end_ (loc_range loc)) ≤ len l).
Proof.
  intros Hdoc. unfold handleReferences. rewrite Hdoc.
  destruct (getWordAtPosition doc (line pos) (character pos)) as [w|] eqn:Hw;
    [|done]. simpl.
  assert (∀ locs : list Location, locs = [] →
            increasing loc_line locs
            ∧ (length locs ≤ length (split_lines (getText doc)))%nat
            ∧ ∀ loc, loc ∈ locs →
                ∃ w' (i : nat) l,
                  Normal w = Normal (Some w')
                  ∧ split_lines (getText doc) !! i = Some l
                  ∧ loc_uri loc = u
                  ∧ line (start (loc_range loc)) = Z.of_nat i
                  ∧ line (end_ (loc_range loc)) = Z.of_nat i
                  ∧ 0 ≤ character (start (loc_range loc))
                  ∧ character (end_ (loc_range loc))
                    = character (start (loc_range loc)) + len w'
                  ∧ character (end_ (loc_range loc)) ≤ len l) as Hnil.
  { intros locs ->. split_and!; [apply ordered_nil|simpl; lia|].
    intros loc H. by apply elem_of_nil in H. }
  destruct w as [[|c cs]|]; intros [= <-]; [by apply Hnil| |by apply Hnil].
  clear Hnil. split_and!.
  - apply references_loop_increasing.
  - apply references_loop_length.
  - intros loc Hin. apply references_loop_elem in Hin as (i & l & Hl & Hidx & ->).
    destruct (indexOf_from_cases l (c :: cs) 0) as [[E _]|(m & Em & F)]; [done|].
    apply first_occurrence_bounds in F. fold (indexOf l (c :: cs)) in Em.
    exists (c :: cs), i, l. simpl. rewrite Em. unfold len in *. simpl in *.
    split_and!; try done; lia.
Qed.

Lemma handleReferences_ordered_witness :
  increasing loc_line
    [ {| loc_uri := test_uri; loc_range := mkRange 0 4 9 |};
      {| loc_uri := test_uri; loc_range := mkRange 2 14 19 |} ].
Proof.
  exact (proj1 (handleReferences_ordered sample_server test_uri
                  {| line := 2; character := 14 |} sample_doc _ eq_refl eq_refl)).
Defined.
